(** * tsp-solver: the genetic engine ([genetic.py]) and its greedy seed
    ([greedy.py]), embedded as Rocq functions.

    - Python lists are [list]s, read with stdpp's lookup and written with
      its insert; slices are [take] and [drop].
    - A failing [assert], [sample] on too small a population, [pop] on an
      empty set or an index out of range is an exception carried by [res].
    - The module-level random generator is an explicit tape of draws that
      every random call consumes; a [while] loop that resamples runs on fuel
      and reports [OutOfFuel] when the fuel is spent before it exits.
    - Node identifiers, distances and fitnesses are integers. *)

From Stdlib Require Import ZArith Lia ZifyNat.
From stdpp Require Import base numbers list.

Open Scope Z_scope.
Open Scope nat_scope.

(** ** Exceptions and results *)

Inductive exn : Type :=
  | AssertionError
  | ValueError
  | IndexError
  | KeyError
  | TypeError.

Inductive res (A : Type) : Type :=
  | Ret (a : A)
  | Raise (e : exn)
  | OutOfFuel.

Arguments Ret {A} a.
Arguments Raise {A} e.
Arguments OutOfFuel {A}.

(** A computation over a mutable state [S]: the result and the state it
    leaves behind.  An exception keeps the state reached when it was
    raised. *)
Definition M (S A : Type) : Type := S -> res A * S.

Definition ret {S A} (a : A) : M S A := fun s => (Ret a, s).

Definition raise {S A} (e : exn) : M S A := fun s => (Raise e, s).

Definition bind {S A B} (m : M S A) (k : A -> M S B) : M S B :=
  fun s =>
    match m s with
    | (Ret a, s') => k a s'
    | (Raise e, s') => (Raise e, s')
    | (OutOfFuel, s') => (OutOfFuel, s')
    end.

Notation "'let*' x ':=' m 'in' k" := (bind m (fun x => k))
  (at level 10, x pattern, m at level 100, k at level 200, only parsing).

(** [assert c] *)
Definition py_assert {S} (c : bool) : M S unit :=
  if c then ret tt else raise AssertionError.

(** ** The random generator

    The generator's future output is a tape of raw draws and a read head.
    [sample(population, 2)] reads two cells and decodes them to two distinct
    positions of a population of [m] elements; every ordered pair of distinct
    positions is the decoding of some cells, and every pair of cells decodes
    to distinct positions in range. *)

Record rng : Type := mk_rng { tape : nat -> nat; pos : nat }.

Definition advance (k : nat) (g : rng) : rng :=
  {| tape := tape g; pos := pos g + k |}.

Definition decode2 (m r0 r1 : nat) : nat * nat :=
  let a := r0 mod m in
  (a, (a + 1 + r1 mod (m - 1)) mod m).

(** [random.sample(population, 2)], as the two chosen positions; it raises
    [ValueError] when the population has fewer than two elements. *)
Definition sample2 (m : nat) : M rng (nat * nat) :=
  fun g =>
    if m <? 2 then (Raise ValueError, g)
    else (Ret (decode2 m (tape g (pos g)) (tape g (S (pos g)))), advance 2 g).

(** [random() <= MUTATION_PROBA]: one cell of the tape, one time in ten. *)
Definition random_le_mutation_proba : M rng bool :=
  fun g => (Ret (tape g (pos g) mod 10 =? 0), advance 1 g).

(** ** Slices *)

Record slice : Type := mk_slice { start : nat; stop : nat }.

(** [seq[sl]] for a slice with non-negative bounds. *)
Definition slice_get {A} (seq : list A) (sl : slice) : list A :=
  take (stop sl - start sl) (drop (start sl) seq).

(** [seq[sl] = xs] for a slice with non-negative bounds. *)
Definition slice_set {A} (seq : list A) (sl : slice) (xs : list A) : list A :=
  take (start sl) seq ++ xs ++ drop (start sl `max` stop sl) seq.

(** ** Swath selection *)

Definition _random_slice (seq_length : Z) : M rng slice :=
  let* _ := py_assert (0 <? seq_length)%Z in
  (* +1 to consider the last index of the sequence as well *)
  let* cut_points := sample2 (Z.to_nat (seq_length + 1)) in
  let first_cut := fst cut_points `min` snd cut_points in
  let last_cut := fst cut_points `max` snd cut_points in
  ret (mk_slice first_cut last_cut).

(** [while cond(swath): swath = _random_slice(seq_length)] *)
Fixpoint resample_while (cond : slice -> bool) (seq_length : Z)
    (fuel : nat) (swath : slice) : M rng slice :=
  if cond swath then
    match fuel with
    | O => fun g => (OutOfFuel, g)
    | S fuel' =>
        let* swath' := _random_slice seq_length in
        resample_while cond seq_length fuel' swath'
    end
  else ret swath.

Definition too_short (swath : slice) : bool :=
  (Z.of_nat (stop swath) - Z.of_nat (start swath) <=? 1)%Z.

Definition covers_all (seq_length : Z) (swath : slice) : bool :=
  (start swath =? 0) && (Z.of_nat (stop swath) =? seq_length)%Z.

Definition _get_valid_swath (fuel : nat) (seq_length : Z) : M rng slice :=
  let* _ := py_assert (2 <? seq_length)%Z in
  let* swath := _random_slice seq_length in
  (* make sure swath contains more than 1 member *)
  let* swath := resample_while too_short seq_length fuel swath in
  (* make sure swath does not cover full parent *)
  resample_while (covers_all seq_length) seq_length fuel swath.

(** ** Mutation: simple inversion

    [sim] works on the caller's list in place: its state is the list
    together with the generator. *)

Definition on_rng {S A} (m : M rng A) : M (S * rng) A :=
  fun s =>
    match m (snd s) with
    | (r, g') => (r, (fst s, g'))
    end.

Definition modify_seq {S T} (f : S -> S) : M (S * T) unit :=
  fun s => (Ret tt, (f (fst s), snd s)).

Definition get_seq {S T} : M (S * T) S :=
  fun s => (Ret (fst s), s).

Definition sim {A} (fuel : nat) : M (list A * rng) unit :=
  let* seq := get_seq in
  let* _ := py_assert (2 <? Z.of_nat (length seq))%Z in
  (* select random portion of a sequence *)
  let* swath := on_rng (_get_valid_swath fuel (Z.of_nat (length seq))) in
  (* reverse that portion *)
  modify_seq (fun seq => slice_set seq swath (reverse (slice_get seq swath))).

(** A call on a list no one else holds: the list after the call is handed
    back. *)
Definition with_local {S T A} (s0 : S) (m : M (S * T) A) : M T S :=
  fun t =>
    match m (s0, t) with
    | (Ret _, (s', t')) => (Ret s', t')
    | (Raise e, (_, t')) => (Raise e, t')
    | (OutOfFuel, (_, t')) => (OutOfFuel, t')
    end.

(** ** Crossover: OX1 *)

(** [seq[i]] and [seq[i] = x] with Python's bounds check (indices here are
    never negative). *)
Definition py_get {S A} (seq : list A) (i : nat) : M S A :=
  match seq !! i with
  | Some x => ret x
  | None => raise IndexError
  end.

Definition py_set {S A} (seq : list A) (i : nat) (x : A) : M S (list A) :=
  if i <? length seq then ret (<[i:=x]> seq) else raise IndexError.

(** [for x in xs: body], threading the loop's variables [acc]. *)
Fixpoint for_each {S X B} (xs : list X) (body : B -> X -> M S B) (acc : B)
    : M S B :=
  match xs with
  | [] => ret acc
  | x :: xs' => let* acc' := body acc x in for_each xs' body acc'
  end.

Section Crossover.
Context {A : Type} `{EqDecision A}.

(** One turn of the loop of [_fill_missing_genes]; the loop's variables
    are the target and [target_offset]. *)
Definition fill_step {St} (start_point source_length : nat)
    (source : list A) (already_filled_values : list (option A))
    (vars : list (option A) * nat) (source_offset : nat)
    : M St (list (option A) * nat) :=
  let '(target, target_offset) := vars in
  let idx_source := (source_offset + start_point) mod source_length in
  let* next_val := py_get source idx_source in
  if bool_decide (Some next_val ∈ already_filled_values) then ret vars
  else
    let idx_target := (target_offset + start_point) mod source_length in
    (* fill in target's gene with parent's allele *)
    let* target := py_set target idx_target (Some next_val) in
    (* move to next available place in target *)
    ret (target, S target_offset).

Definition _fill_missing_genes {St} (prefilled_slice : slice)
    (source : list A) (target : list (option A))
    : M St (list (option A)) :=
  let source_length := length source in
  let start_point := stop prefilled_slice in
  (* remember already filled values to skip them later *)
  let already_filled_values := slice_get target prefilled_slice in
  let* vars :=
    for_each (seq 0 source_length)
      (fill_step start_point source_length source already_filled_values)
      (target, 0) in
  ret (fst vars).

(** [ox1] once the swath is drawn. *)
Definition ox1_with {St} (swath : slice) (main_seq secondary_seq : list A)
    : M St (list (option A)) :=
  let length := length main_seq in
  let child := replicate length None in
  (* copy subtour from main parent into a child *)
  let child := slice_set child swath (Some <$> slice_get main_seq swath) in
  (* fill child's missing genes with alleles from secondary_parent *)
  _fill_missing_genes swath secondary_seq child.

Definition ox1 (fuel : nat) (main_seq secondary_seq : list A)
    : M rng (list (option A)) :=
  let length := length main_seq in
  let* _ := py_assert (length =? List.length secondary_seq) in
  let* swath := _get_valid_swath fuel (Z.of_nat length) in
  ox1_with swath main_seq secondary_seq.
End Crossover.

(** ** [heapq]: the library's array heap, as [update_population] uses it

    The functions follow CPython's [heapq]; [ltb] is Python's [<] on the
    heap's elements.  Every index read below is in range where the library
    reads it, so the reads use the total lookup. *)

Section Heapq.
Context {A : Type} `{Inhabited A} (ltb : A -> A -> bool).

(** The loop of [_siftdown]: move parents down until [newitem] fits.  The
    position at least halves at every turn, so [pos] turns are enough
    ([siftdown_loop_fuel]). *)
Fixpoint siftdown_loop (fuel : nat) (newitem : A) (startpos : nat)
    (heap : list A) (pos : nat) : list A * nat :=
  match fuel with
  | O => (heap, pos)
  | S fuel' =>
      if startpos <? pos then
        let parentpos := (pos - 1) / 2 in
        let parent := heap !!! parentpos in
        if ltb newitem parent then
          siftdown_loop fuel' newitem startpos (<[pos:=parent]> heap)
            parentpos
        else (heap, pos)
      else (heap, pos)
  end.

Definition _siftdown (heap : list A) (startpos pos : nat) : list A :=
  let newitem := heap !!! pos in
  let '(heap, pos) := siftdown_loop pos newitem startpos heap pos in
  <[pos:=newitem]> heap.

(** The loop of [_siftup]: bubble the smaller child up until a leaf.  The
    position grows at every turn, so [length heap] turns are enough
    ([siftup_loop_fuel]). *)
Fixpoint siftup_loop (fuel : nat) (heap : list A) (pos : nat)
    : list A * nat :=
  let endpos := length heap in
  let childpos := 2 * pos + 1 in
  match fuel with
  | O => (heap, pos)
  | S fuel' =>
      if childpos <? endpos then
        let rightpos := childpos + 1 in
        let childpos :=
          if (rightpos <? endpos)
             && negb (ltb (heap !!! childpos) (heap !!! rightpos))
          then rightpos else childpos in
        siftup_loop fuel' (<[pos:=heap !!! childpos]> heap) childpos
      else (heap, pos)
  end.

Definition _siftup (heap : list A) (pos : nat) : list A :=
  let startpos := pos in
  let newitem := heap !!! pos in
  let '(heap, pos) := siftup_loop (length heap) heap pos in
  _siftdown (<[pos:=newitem]> heap) startpos pos.

(** [heappushpop(heap, item)]: the returned item, with the heap as the
    state. *)
Definition heappushpop (item : A) : M (list A) A :=
  fun heap =>
    match heap with
    | top :: _ =>
        if ltb top item then (Ret top, _siftup (<[0:=item]> heap) 0)
        else (Ret item, heap)
    | [] => (Ret item, heap)
    end.
End Heapq.

(** ** Graph, tours and fitness *)

Abbreviation node := Z (only parsing).

(** The graph the engine queries: [nodes] lists [graph.nodes()] and
    [distance] is [graph.distance]. *)
Record Graph : Type := mk_graph {
  nodes : list node;
  distance : node -> node -> Z
}.

Abbreviation tour := (list node) (only parsing).

(** A population member [(fitness, tour)]. *)
Abbreviation member := (Z * tour)%type (only parsing).

(** Python's [<] on lists of nodes. *)
Fixpoint tour_ltb (s1 s2 : tour) : bool :=
  match s1, s2 with
  | [], [] => false
  | [], _ :: _ => true
  | _ :: _, [] => false
  | x :: s1', y :: s2' =>
      if (x =? y)%Z then tour_ltb s1' s2' else (x <? y)%Z
  end.

(** Python's [<] on the tuples [(fitness, tour)]. *)
Definition member_ltb (a b : member) : bool :=
  if (fst a =? fst b)%Z then tour_ltb (snd a) (snd b)
  else (fst a <? fst b)%Z.

(** Modelled from the spec: [tour_length] of the [algorithms] module, the
    sum of [distance] over consecutive tour pairs including the wrap-around
    edge from the last node back to the first. *)
Fixpoint path_length (graph : Graph) (t : tour) : Z :=
  match t with
  | a :: (b :: _) as t' => (distance graph a b + path_length graph t')%Z
  | _ => 0%Z
  end.

Definition tour_length (graph : Graph) (t : tour) : Z :=
  match t with
  | [] => 0%Z
  | first :: _ => (path_length graph t + distance graph (List.last t first) first)%Z
  end.

Definition _get_fitness (t : tour) (graph : Graph) : Z :=
  let length := tour_length graph t in
  (-1 * length)%Z.

(** A child as [ox1] leaves it holds a node or [None] at each position.  It
    is scored and stored as a tour; [tour_length] on a child with a position
    still [None] has no node to ask the graph about, a [TypeError]. *)
Fixpoint filled_tour (child : list (option node)) : option tour :=
  match child with
  | [] => Some []
  | Some x :: child' => cons x <$> filled_tour child'
  | None :: _ => None
  end.

Definition scored {St} (child : list (option node)) (graph : Graph)
    : M St member :=
  match filled_tour child with
  | Some t => ret (_get_fitness t graph, t)
  | None => raise TypeError
  end.

(** ** Population *)

(** [len(set(fitness for (fitness, _) in population)) <= 1] *)
Definition is_population_saturated (population : list member) : bool :=
  length (remove_dups (fst <$> population)) <=? 1.

Definition get_state {St} : M St St := fun s => (Ret s, s).

Definition update_population (item : member) : M (list member) unit :=
  let* population := get_state in
  let* worst := py_get population 0 in
  (* if items fitness is better than population's worst items fitness *)
  if (fst worst <? fst item)%Z then
    (* get rid of worst item, add this one *)
    let* _ := heappushpop member_ltb item in
    ret tt
  else ret tt.

(** ** The greedy constructor

    [available_nodes] is the set of the graph's nodes, kept as the list of
    its elements in the set's iteration order; [pop] takes the first of
    them. *)

(** [min(candidates, key=key)]: the first candidate of least key. *)
Fixpoint min_by (key : node -> Z) (best : node) (candidates : list node)
    : node :=
  match candidates with
  | [] => best
  | x :: candidates' =>
      min_by key (if (key x <? key best)%Z then x else best) candidates'
  end.

Definition set_remove (x : node) (s : list node) : list node :=
  filter (fun y => y ≠ x) s.

(** The [while available_nodes] loop; every turn removes one node, so
    [fuel] is the number of nodes still available. *)
Fixpoint greedy_loop (fuel : nat) (graph : Graph) (prev_node : node)
    (available_nodes : list node) (t : tour) : tour :=
  match fuel, available_nodes with
  | S fuel', c :: cs =>
      (* pick next node out of available nodes based on distance *)
      let next_node := min_by (fun x => distance graph prev_node x) c cs in
      greedy_loop fuel' graph next_node
        (set_remove next_node available_nodes) (t ++ [next_node])
  | _, _ => t
  end.

Definition greedy {St} (graph : Graph) : M St tour :=
  let available_nodes := remove_dups (nodes graph) in
  match available_nodes with
  | [] => raise KeyError
  | prev_node :: available_nodes =>
      ret (greedy_loop (length available_nodes) graph prev_node
             available_nodes [prev_node])
  end.

Definition generate_population (fuel : nat) (graph : Graph) (size : Z)
    : M rng (list member) :=
  let population := [] in
  (* construct first individual, add it to population *)
  let* initial_tour := greedy graph in
  let item := (_get_fitness initial_tour graph, initial_tour) in
  let population := population ++ [item] in
  (* mutate initial solution to generate remaining members *)
  for_each (seq 0 (Z.to_nat (size - 1)))
    (fun population _ =>
       let* mutated_tour := with_local initial_tour (sim fuel) in
       let item := (_get_fitness mutated_tour graph, mutated_tour) in
       ret (population ++ [item]))
    population.

(** ** Selection *)

Definition _tournament_selection (population : list member) : M rng tour :=
  (* choose two individuals randomly from population without replacement *)
  let* chosen := sample2 (length population) in
  let* first := py_get population (fst chosen) in
  let* second := py_get population (snd chosen) in
  (* select best-fitted individual from chosen ones according to fitness *)
  let best_item := if (fst first <? fst second)%Z then second else first in
  ret (snd best_item).

Definition select_two_parents (population : list member)
    : M rng (tour * tour) :=
  let* parent1 := _tournament_selection population in
  let* parent2 := _tournament_selection population in
  ret (parent1, parent2).

(** ** The evolutionary loop *)

Definition POPULATION_SIZE : Z := 200.
Definition MAX_ITERATIONS : Z := 50000.

Definition on_population {St T A} (m : M St A) : M (St * T) A :=
  fun s =>
    match m (fst s) with
    | (r, p') => (r, (p', snd s))
    end.

(** [max(population, key=itemgetter(0))]: the first member of greatest
    fitness. *)
Fixpoint max_by_fitness (best : member) (population : list member)
    : member :=
  match population with
  | [] => best
  | x :: population' =>
      max_by_fitness (if (fst best <? fst x)%Z then x else best) population'
  end.

(** One turn of the loop of [genetic]. *)
Definition generation (fuel : nat) (graph : Graph)
    : M (list member * rng) unit :=
  let* population := get_seq in
  (* select parents from the population *)
  let* parents := on_rng (select_two_parents population) in
  let parent1 := fst parents in
  let parent2 := snd parents in
  (* apply OX1 crossover w. high probability proba_crossover *)
  let* child1 := on_rng (ox1 fuel parent1 parent2) in
  (* apply SIM mutation w. low proba_mutation *)
  let* mutate := on_rng random_le_mutation_proba in
  let* child1 :=
    if mutate then on_rng (with_local child1 (sim fuel)) else ret child1 in
  (* replace ancestor in a population *)
  let* child1_item := scored child1 graph in
  let* _ := on_population (update_population child1_item) in
  (* same for second child, but flip order of parents *)
  let* child2 := on_rng (ox1 fuel parent2 parent1) in
  let* mutate := on_rng random_le_mutation_proba in
  let* child2 :=
    if mutate then on_rng (with_local child2 (sim fuel)) else ret child2 in
  let* child2_item := scored child2 graph in
  on_population (update_population child2_item).

(** The statements the loop makes for one child, on their own: crossover,
    mutation with low probability, scoring, replacement.  [generation] is
    these statements for the parents in one order and then in the other
    ([generation_offspring]). *)
Definition offspring (fuel : nat) (graph : Graph) (main secondary : tour)
    : M (list member * rng) unit :=
  let* child := on_rng (ox1 fuel main secondary) in
  let* mutate := on_rng random_le_mutation_proba in
  let* child :=
    if mutate then on_rng (with_local child (sim fuel)) else ret child in
  let* child_item := scored child graph in
  on_population (update_population child_item).

Definition genetic_with (population_size max_iterations : Z) (fuel : nat)
    (graph : Graph) : M rng tour :=
  (* generate initial population *)
  let* population := generate_population fuel graph population_size in
  let* population :=
    with_local population
      (for_each (seq 0 (Z.to_nat max_iterations))
         (fun _ _ => generation fuel graph) tt) in
  match population with
  | [] => raise ValueError
  | first :: rest => ret (snd (max_by_fitness first rest))
  end.

Definition genetic (fuel : nat) (graph : Graph) : M rng tour :=
  genetic_with POPULATION_SIZE MAX_ITERATIONS fuel graph.

(** A tape that starts with the cells of [l] and goes on with [d]. *)
Definition tape_of (l : list nat) (d : nat) : nat -> nat := fun i => nth i l d.

(** ** Vocabulary of the statements *)

(** A swath of a sequence of [seq_length] cells that holds at least one
    cell. *)
Definition inside (seq_length : Z) (swath : slice) : Prop :=
  start swath < stop swath /\ (Z.of_nat (stop swath) <= seq_length)%Z.

(** [seq'] is [seq] with the cells of [swath] in reversed order and every
    other cell as it was. *)
Definition reversed_on {A} (swath : slice) (seq seq' : list A) : Prop :=
  length seq' = length seq
  /\ (forall i, start swath <= i < stop swath ->
        seq' !! i = seq !! (start swath + stop swath - 1 - i))
  /\ (forall i, ¬ (start swath <= i < stop swath) -> seq' !! i = seq !! i).

(** What a call of [sim] on [seq] leaves: when it returns, one swath was
    drawn and [seq] is reversed on it; it never raises on a long enough
    list; when the resampling runs out of fuel the list is as it was. *)
Definition sim_outcome {A} (fuel : nat) (seq : list A) (g : rng)
    (out : res unit * (list A * rng)) : Prop :=
  match out with
  | (Ret _, (seq', g')) =>
      exists swath,
        _get_valid_swath fuel (Z.of_nat (length seq)) g = (Ret swath, g')
        /\ start swath < stop swath <= length seq
        /\ reversed_on swath seq seq'
  | (Raise _, _) => False
  | (OutOfFuel, (seq', _)) => seq' = seq
  end.

(** The writes of the fill loop: [vals] go to the positions
    [start_point + target_offset], [start_point + target_offset + 1], ...
    taken modulo [n]. *)
Fixpoint write_from {A} (start_point n : nat) (vals : list A)
    (target_offset : nat) (target : list (option A)) : list (option A) :=
  match vals with
  | [] => target
  | v :: vals' =>
      write_from start_point n vals' (S target_offset)
        (<[(target_offset + start_point) mod n:=Some v]> target)
  end.

(** The values of the secondary parent in cyclic order from [stop_point],
    without those already present in the swath [sw]. *)
Definition accepted {A} `{EqDecision A} (sw : list A) (stop_point : nat)
    (secondary_seq : list A) : list A :=
  filter (fun v => v ∉ sw) (rotate stop_point secondary_seq).

(** The child in closed form: the accepted values that wrapped around to
    the front, the swath of the main parent, the accepted values written
    from [stop] to the end. *)
Definition ox1_child {A} `{EqDecision A} (swath : slice)
    (main_seq secondary_seq : list A) : list A :=
  let rest :=
    accepted (slice_get main_seq swath) (stop swath) secondary_seq in
  drop (length main_seq - stop swath) rest
  ++ slice_get main_seq swath
  ++ take (length main_seq - stop swath) rest.

(** The node set of the graph, as [greedy] enumerates it. *)
Definition node_set (graph : Graph) : list node := remove_dups (nodes graph).

(** [t] is a permutation of the full node set: same length as the node
    set, no duplicate elements, and set-equal to the node set. *)
Definition permutation_of_nodes (graph : Graph) (t : list node) : Prop :=
  length t = length (node_set graph)
  /\ NoDup t
  /\ (forall x, x ∈ t <-> x ∈ node_set graph).

(** Every tour the three operators produce from the graph and from
    permutations of its nodes is a permutation of its nodes: [greedy]
    returns one; a child [ox1] returns has a node at every position and is
    one; the list [sim] was called on is one after the call, however the
    call ends. *)
Definition permutation_invariant (graph : Graph) : Prop :=
  (forall (St : Type) (s : St),
     exists t, greedy graph s = (Ret t, s) /\ permutation_of_nodes graph t)
  /\ (forall fuel main_seq secondary_seq g child g',
        permutation_of_nodes graph main_seq ->
        permutation_of_nodes graph secondary_seq ->
        length main_seq = length secondary_seq ->
        ox1 fuel main_seq secondary_seq g = (Ret child, g') ->
        exists t, child = Some <$> t /\ permutation_of_nodes graph t)
  /\ (forall fuel t g,
        permutation_of_nodes graph t ->
        permutation_of_nodes graph (fst (snd (sim fuel (t, g))))).

(** A square of four nodes on a line of integers, squared differences as
    distances. *)
Definition square_graph : Graph :=
  mk_graph [0; 1; 2; 3]%Z (fun a b => (a - b) * (a - b))%Z.

(** [heap] is a min-heap for the order [R]: every element is above its
    parent. *)
Definition heap_on {A} `{Inhabited A} (R : A -> A -> Prop) (heap : list A)
    : Prop :=
  forall j, 0 < j < length heap -> R (heap !!! ((j - 1) / 2)) (heap !!! j).

(** [heap] is ordered everywhere except around the hole at [pos]: every
    parent-child pair away from [pos] is in order, and the children of
    [pos] are above the parent of [pos]. *)
Definition around_hole {A} `{Inhabited A} (R : A -> A -> Prop)
    (heap : list A) (pos : nat) : Prop :=
  (forall j, 0 < j < length heap -> j ≠ pos -> (j - 1) / 2 ≠ pos ->
     R (heap !!! ((j - 1) / 2)) (heap !!! j))
  /\ (0 < pos ->
      forall c, 0 < c < length heap -> (c - 1) / 2 = pos ->
        R (heap !!! ((pos - 1) / 2)) (heap !!! c)).

(** The children of [pos] are above [x]. *)
Definition below_children {A} `{Inhabited A} (R : A -> A -> Prop)
    (x : A) (heap : list A) (pos : nat) : Prop :=
  forall c, 0 < c < length heap -> (c - 1) / 2 = pos -> R x (heap !!! c).

(** [a] is at most as fit as [b]. *)
Definition fitness_le (a b : member) : Prop := (fst a <= fst b)%Z.

(** The population is organized as a min-heap on fitness. *)
Definition fitness_heap (population : list member) : Prop :=
  heap_on fitness_le population.

(** The swath [_random_slice] makes of the two cells at [p]. *)
Definition draw_at (t : nat -> nat) (seq_length : Z) (p : nat) : slice :=
  let cut_points := decode2 (Z.to_nat (seq_length + 1)) (t p) (t (S p)) in
  mk_slice (fst cut_points `min` snd cut_points)
           (fst cut_points `max` snd cut_points).

(** A draw that gets out of both loops. *)
Definition good_draw (seq_length : Z) (swath : slice) : bool :=
  negb (too_short swath) && negb (covers_all seq_length swath).

(** Wherever the read head stands, a good draw comes up after finitely many
    draws. *)
Definition fair (seq_length : Z) (t : nat -> nat) : Prop :=
  forall p, exists k, good_draw seq_length (draw_at t seq_length (p + 2 * k)) = true.

(** A computation that runs out of fuel whatever fuel it is given. *)
Definition never_returns {A} (m : nat -> M rng A) (g : rng) : Prop :=
  forall fuel, fst (m fuel g) = OutOfFuel.

(** With enough fuel, [m] returns a value and leaves a state that satisfy
    [post]; the value and the state do not depend on the fuel. *)
Definition runs {St A} (m : nat -> M St A) (s : St)
    (post : A -> St -> Prop) : Prop :=
  exists fuel0 a s',
    post a s' /\ forall fuel, fuel0 <= fuel -> m fuel s = (Ret a, s').

(** Members whose tours are permutations of the node set. *)
Definition valid_members (graph : Graph) (population : list (Z * list Z))
    : Prop :=
  Forall (fun m => permutation_of_nodes graph (snd m)) population.

(** The state of the loop: the population keeps its size and its members
    stay permutations of the node set; the tape is the one we started on. *)
Definition evolving (graph : Graph) (size : nat) (t : nat -> nat)
    (s : list (Z * list Z) * rng) : Prop :=
  length (fst s) = size /\ valid_members graph (fst s) /\ tape (snd s) = t.

(** [t] is the tour of a member that won a tournament of two: another
    member, at another position, is no fitter. *)
Definition tournament_winner (population : list member) (t : tour) : Prop :=
  exists i j a b,
    i ≠ j /\ population !! i = Some a /\ population !! j = Some b
    /\ (fst b <= fst a)%Z /\ t = snd a.

(** From [prev] on, every node of [t] is a nearest one among those that
    follow it. *)
Fixpoint nearest_chain (graph : Graph) (prev : node) (t : tour) : Prop :=
  match t with
  | [] => True
  | x :: t' =>
      (forall y, y ∈ t' -> (distance graph prev x <= distance graph prev y)%Z)
      /\ nearest_chain graph x t'
  end.

(** Every member carries the fitness of its own tour, a permutation of the
    node set. *)
Definition scored_members (graph : Graph) (population : list member)
    : Prop :=
  Forall (fun m => fst m = _get_fitness (snd m) graph
                   /\ permutation_of_nodes graph (snd m)) population.

(** Some member is at least as fit as [bound]. *)
Definition reaches (bound : Z) (population : list member) : Prop :=
  exists m, m ∈ population /\ (bound <= fst m)%Z.

(** * Properties *)

(** ** Running computations *)

Lemma bind_ret_inv {St A B} (m : M St A) (k : A -> M St B) s b s' :
  bind m k s = (Ret b, s') ->
  exists a s1, m s = (Ret a, s1) /\ k a s1 = (Ret b, s').
Proof.
  unfold bind. destruct (m s) as [[a| |] s1]; intros Hk; try discriminate.
  by exists a, s1.
Qed.

Lemma bind_ret {St A B} (m : M St A) (k : A -> M St B) s a s1 :
  m s = (Ret a, s1) -> bind m k s = k a s1.
Proof. unfold bind. by intros ->. Qed.

Lemma py_assert_ret_inv {St} (c : bool) (s s' : St) u :
  py_assert c s = (Ret u, s') -> c = true /\ s' = s.
Proof. unfold py_assert, ret, raise. destruct c; intros; by simplify_eq. Qed.

(** Take a returning run apart, one bind at a time. *)
Ltac run_inv H :=
  repeat match type of H with
  | bind _ _ _ = (Ret _, _) =>
      let a := fresh "a" in
      let s := fresh "s" in
      let H1 := fresh "Hrun" in
      apply bind_ret_inv in H as (a & s & H1 & H)
  end.

(** ** Cut points *)

Lemma decode2_distinct m r0 r1 :
  2 <= m ->
  fst (decode2 m r0 r1) < m /\ snd (decode2 m r0 r1) < m
  /\ fst (decode2 m r0 r1) ≠ snd (decode2 m r0 r1).
Proof.
  intros Hm. unfold decode2. cbn [fst snd].
  assert (Ha : r0 mod m < m) by (apply Nat.mod_upper_bound; lia).
  assert (Hd : r1 mod (m - 1) < m - 1) by (apply Nat.mod_upper_bound; lia).
  set (a := r0 mod m) in *. set (d := r1 mod (m - 1)) in *.
  split; [done|]. split; [apply Nat.mod_upper_bound; lia|].
  destruct (decide (a + 1 + d < m)) as [Hlt|Hge].
  - rewrite Nat.mod_small by done. lia.
  - replace (a + 1 + d) with ((a + 1 + d - m) + 1 * m) by lia.
    rewrite Nat.Div0.mod_add, Nat.mod_small by lia. lia.
Qed.

Lemma _random_slice_ret seq_length g swath g' :
  _random_slice seq_length g = (Ret swath, g') ->
  start swath < stop swath /\ (Z.of_nat (stop swath) <= seq_length)%Z
  /\ g' = advance 2 g.
Proof.
  unfold _random_slice. intros Hrun. run_inv Hrun.
  apply py_assert_ret_inv in Hrun0 as [Hpos ->].
  unfold sample2 in Hrun1. case_match; [discriminate|].
  match goal with H : (_ <? 2) = false |- _ => apply Nat.ltb_ge in H; rename H into Hm end.
  destruct (decode2_distinct _ (tape g (pos g)) (tape g (S (pos g))) Hm)
    as (Ha & Hb & Hab).
  injection Hrun1 as <- <-. injection Hrun as <- <-.
  apply Z.ltb_lt in Hpos. unfold decode2 in *. cbn [start stop fst snd] in *.
  repeat split; lia.
Qed.

Lemma _random_slice_returns seq_length g :
  (0 < seq_length)%Z ->
  exists swath, _random_slice seq_length g = (Ret swath, advance 2 g).
Proof.
  intros Hpos. unfold _random_slice.
  erewrite bind_ret; last first.
  { unfold py_assert. rewrite (proj2 (Z.ltb_lt _ _) Hpos). reflexivity. }
  unfold sample2, bind, ret.
  destruct (Z.to_nat (seq_length + 1) <? 2) eqn:Hm; [apply Nat.ltb_lt in Hm; lia|].
  eauto.
Qed.

Lemma resample_while_ret cond seq_length fuel swath g swath' g' :
  inside seq_length swath ->
  resample_while cond seq_length fuel swath g = (Ret swath', g') ->
  inside seq_length swath' /\ cond swath' = false.
Proof.
  revert swath g. induction fuel as [|fuel IH]; intros swath g Hin; cbn.
  - destruct (cond swath) eqn:Hc; [discriminate|].
    intros [= <- <-]. done.
  - destruct (cond swath) eqn:Hc.
    + intros Hrun. run_inv Hrun.
      apply _random_slice_ret in Hrun0 as (? & ? & ->).
      eapply IH; [|done]. done.
    + intros [= <- <-]. done.
Qed.

Lemma _get_valid_swath_ret fuel seq_length g swath g' :
  _get_valid_swath fuel seq_length g = (Ret swath, g') ->
  (2 < seq_length)%Z /\ inside seq_length swath
  /\ covers_all seq_length swath = false.
Proof.
  unfold _get_valid_swath. intros Hrun. run_inv Hrun.
  apply py_assert_ret_inv in Hrun0 as [Hlen ->].
  apply _random_slice_ret in Hrun1 as (? & ? & ->).
  apply resample_while_ret in Hrun2 as [Hin _]; [|done].
  apply resample_while_ret in Hrun as [? ?]; [|done].
  split; [lia|done].
Qed.

Lemma resample_while_no_raise cond seq_length fuel swath g e g' :
  (0 < seq_length)%Z ->
  resample_while cond seq_length fuel swath g ≠ (Raise e, g').
Proof.
  intros Hpos. revert swath g.
  induction fuel as [|fuel IH]; intros swath g; cbn;
    destruct (cond swath); try done.
  destruct (_random_slice_returns seq_length g Hpos) as [swath' Hrun].
  rewrite (bind_ret _ _ _ _ _ Hrun). apply IH.
Qed.

Lemma _get_valid_swath_no_raise fuel seq_length g e g' :
  (2 < seq_length)%Z ->
  _get_valid_swath fuel seq_length g ≠ (Raise e, g').
Proof.
  intros Hlen. unfold _get_valid_swath.
  erewrite bind_ret; last first.
  { unfold py_assert. rewrite (proj2 (Z.ltb_lt _ _) Hlen). reflexivity. }
  destruct (_random_slice_returns seq_length g) as [swath Hrun]; [lia|].
  rewrite (bind_ret _ _ _ _ _ Hrun). unfold bind at 1.
  destruct (resample_while too_short _ _ _ _) as [[swath1| |] g1] eqn:Hloop;
    [|by apply resample_while_no_raise in Hloop; [|lia]|done].
  apply resample_while_no_raise. lia.
Qed.

Lemma _get_valid_swath_short fuel seq_length g :
  (seq_length <= 2)%Z ->
  _get_valid_swath fuel seq_length g = (Raise AssertionError, g).
Proof.
  intros Hlen. unfold _get_valid_swath, bind, py_assert.
  by rewrite (proj2 (Z.ltb_ge _ _) Hlen).
Qed.

(** ** Mutation *)

Lemma sim_unfold {A} fuel (seq : list A) g :
  sim fuel (seq, g) =
    if (2 <? Z.of_nat (length seq))%Z then
      match _get_valid_swath fuel (Z.of_nat (length seq)) g with
      | (Ret swath, g') =>
          (Ret tt, (slice_set seq swath (reverse (slice_get seq swath)), g'))
      | (Raise e, g') => (Raise e, (seq, g'))
      | (OutOfFuel, g') => (OutOfFuel, (seq, g'))
      end
    else (Raise AssertionError, (seq, g)).
Proof.
  unfold sim, bind, get_seq, py_assert, on_rng, modify_seq, ret, raise.
  cbn [fst snd]. destruct (2 <? _)%Z; [|done].
  by destruct (_get_valid_swath _ _ _) as [[?| |] ?].
Qed.

(** Reversing the cells of a swath: what is read at each position. *)
Lemma reverse_swath_length {A} (seq : list A) swath :
  stop swath <= length seq ->
  length (slice_set seq swath (reverse (slice_get seq swath))) = length seq.
Proof.
  intros Hstop. unfold slice_set, slice_get.
  rewrite !length_app, length_reverse, !length_take, !length_drop. lia.
Qed.

Lemma reverse_swath_inside {A} (seq : list A) swath i :
  stop swath <= length seq ->
  start swath <= i < stop swath ->
  slice_set seq swath (reverse (slice_get seq swath)) !! i
  = seq !! (start swath + stop swath - 1 - i).
Proof.
  intros Hstop [Hlo Hhi]. unfold slice_set, slice_get.
  assert (Hlen : length (take (stop swath - start swath)
                           (drop (start swath) seq))
                 = stop swath - start swath)
    by (rewrite length_take, length_drop; lia).
  rewrite lookup_app_r by (rewrite length_take; lia).
  rewrite length_take, Nat.min_l by lia.
  rewrite lookup_app_l by (rewrite length_reverse, Hlen; lia).
  rewrite reverse_lookup by (rewrite Hlen; lia).
  rewrite Hlen, lookup_take_lt, lookup_drop by lia.
  f_equal. lia.
Qed.

Lemma reverse_swath_outside {A} (seq : list A) swath i :
  start swath <= stop swath <= length seq ->
  ¬ (start swath <= i < stop swath) ->
  slice_set seq swath (reverse (slice_get seq swath)) !! i = seq !! i.
Proof.
  intros [Hle Hstop] Hout. unfold slice_set, slice_get.
  destruct (decide (i < start swath)) as [Hlt|Hge].
  - rewrite lookup_app_l by (rewrite length_take; lia).
    by rewrite lookup_take_lt.
  - rewrite lookup_app_r by (rewrite length_take; lia).
    rewrite lookup_app_r;
      rewrite ?length_reverse, ?length_take, ?length_drop; [|lia].
    rewrite lookup_drop. f_equal. lia.
Qed.

Lemma reverse_swath_reversed_on {A} (seq : list A) swath :
  start swath <= stop swath <= length seq ->
  reversed_on swath seq (slice_set seq swath (reverse (slice_get seq swath))).
Proof.
  intros [Hle Hstop]. repeat split.
  - by apply reverse_swath_length.
  - intros i Hi. by apply reverse_swath_inside.
  - intros i Hi. by apply reverse_swath_outside.
Qed.

(** C2, at the input where it fails: the first draw covers the whole
    sequence of length 3, the second loop resamples, and the draw it then
    accepts holds a single element: the swath returned is [0, 1). *)
Theorem _get_valid_swath_single_element (fuel : nat) :
  fst (_get_valid_swath (S fuel) 3 (mk_rng (tape_of [0; 2; 0; 0] 0) 0))
  = Ret (mk_slice 0 1).
Proof. destruct fuel; reflexivity. Qed.

(** ** Precondition checks *)

(** C8: calling [sim] on a sequence of length <= 2, calling
    [_get_valid_swath] with length <= 2, or calling [ox1] with parents of
    unequal lengths fails with [AssertionError], raised by the check at the
    start of the operation: the list and the generator are as they were. *)
Theorem precondition_checks_come_first :
  (forall (A : Type) fuel (seq : list A) g,
     length seq <= 2 ->
     sim fuel (seq, g) = (Raise AssertionError, (seq, g)))
  /\ (forall fuel seq_length g,
        (seq_length <= 2)%Z ->
        _get_valid_swath fuel seq_length g = (Raise AssertionError, g))
  /\ (forall (A : Type) (eq_dec : EqDecision A) fuel
             (main_seq secondary_seq : list A) g,
        length main_seq ≠ length secondary_seq ->
        ox1 fuel main_seq secondary_seq g = (Raise AssertionError, g)).
Proof.
  split; [|split].
  - intros A fuel seq g Hlen. rewrite sim_unfold.
    by rewrite (proj2 (Z.ltb_ge 2 (Z.of_nat (length seq)))) by lia.
  - intros fuel seq_length g. apply _get_valid_swath_short.
  - intros A eq_dec fuel main_seq secondary_seq g Hlen.
    unfold ox1, bind, py_assert.
    by rewrite (proj2 (Nat.eqb_neq _ _) Hlen).
Qed.

Lemma precondition_checks_come_first_witness :
  sim 0 ([1; 2]%Z, mk_rng (fun _ => 0) 0)
    = (Raise AssertionError, ([1; 2]%Z, mk_rng (fun _ => 0) 0))
  /\ _get_valid_swath 0 2 (mk_rng (fun _ => 0) 0)
     = (Raise AssertionError, mk_rng (fun _ => 0) 0)
  /\ ox1 0 [1; 2; 3]%Z [1; 2]%Z (mk_rng (fun _ => 0) 0)
     = (Raise AssertionError, mk_rng (fun _ => 0) 0).
Proof.
  destruct precondition_checks_come_first as (Hsim & Hswath & Hox1).
  split; [|split].
  - apply Hsim. simpl. lia.
  - apply Hswath. lia.
  - apply Hox1. simpl. lia.
Defined.

(** ** Crossover *)

Section Crossover_facts.
Context {A : Type} `{EqDecision A}.
Implicit Types (main_seq secondary_seq vals : list A).
Implicit Types (target : list (option A)).

Lemma rotate_lookup_mod (l : list A) b off :
  off < length l -> rotate b l !! off = l !! ((off + b) mod length l).
Proof.
  intros Hoff. rewrite lookup_rotate_r by done. f_equal.
  unfold rotate_nat_add.
  rewrite <-Nat2Z.inj_add, <-Nat2Z.inj_mod, Nat2Z.id. f_equal. lia.
Qed.

Lemma length_write_from b n vals t target :
  length (write_from b n vals t target) = length target.
Proof.
  revert t target. induction vals as [|v vals IH]; intros t target; [done|].
  cbn. by rewrite IH, length_insert.
Qed.

Lemma fill_loop_run {St} b secondary_seq sw (l : list A) s0 target t (s : St) :
  0 < length secondary_seq ->
  length target = length secondary_seq ->
  (forall i, i < length l ->
     l !! i = secondary_seq !! ((s0 + i + b) mod length secondary_seq)) ->
  for_each (seq s0 (length l))
    (fill_step b (length secondary_seq) secondary_seq (Some <$> sw))
    (target, t) s
  = (Ret (write_from b (length secondary_seq)
            (filter (fun v => v ∉ sw) l) t target,
          t + length (filter (fun v => v ∉ sw) l)), s).
Proof.
  intros Hpos. revert s0 target t.
  induction l as [|v l IH]; intros s0 target t Hlen Hl.
  - cbn. unfold ret. do 2 f_equal. f_equal. lia.
  - cbn [length seq for_each].
    assert (Hv : secondary_seq !! ((s0 + b) mod length secondary_seq) = Some v).
    { specialize (Hl 0 ltac:(cbn; lia)). cbn in Hl.
      by rewrite Nat.add_0_r in Hl. }
    assert (Htl : forall i, i < length l ->
              l !! i = secondary_seq !! ((S s0 + i + b) mod length secondary_seq)).
    { intros i Hi. specialize (Hl (S i) ltac:(cbn; lia)). cbn in Hl.
      etrans; [exact Hl|]. do 2 f_equal. lia. }
    unfold fill_step at 1. unfold py_get. rewrite Hv.
    unfold bind at 2. unfold ret at 1.
    destruct (decide (v ∈ sw)) as [Hin|Hout].
    + rewrite bool_decide_eq_true_2 by (by apply list_elem_of_fmap_2).
      unfold bind, ret at 1. rewrite IH by done.
      by rewrite filter_cons_False by (by intros Hn; apply Hn).
    + rewrite bool_decide_eq_false_2
        by (by intros Hn%(list_elem_of_fmap_inj_2 Some)).
      unfold py_set.
      rewrite (proj2 (Nat.ltb_lt _ _)); last first.
      { rewrite Hlen. apply Nat.mod_upper_bound. lia. }
      unfold bind, ret at 1 2. rewrite IH by (by rewrite ?length_insert).
      rewrite filter_cons_True by done. cbn. do 3 f_equal. lia.
Qed.

Lemma mod_wrap n x :
  0 < n -> x < 2 * n -> x mod n = if decide (x < n) then x else x - n.
Proof.
  intros Hn Hx. case_decide as Hlt; [by apply Nat.mod_small|].
  replace x with ((x - n) + 1 * n) at 1 by lia.
  rewrite Nat.Div0.mod_add. apply Nat.mod_small. lia.
Qed.

Lemma write_from_other b n vals t target p :
  (forall k, k < length vals -> p ≠ (t + k + b) mod n) ->
  write_from b n vals t target !! p = target !! p.
Proof.
  revert t target. induction vals as [|v vals IH]; intros t target Hp; [done|].
  cbn [write_from]. rewrite IH.
  - apply list_lookup_insert_ne. intros Heq.
    apply (Hp 0); [cbn; lia|]. by rewrite Nat.add_0_r.
  - intros k Hk. specialize (Hp (S k) ltac:(cbn; lia)).
    by replace (S t + k) with (t + S k) by lia.
Qed.

Lemma write_from_written b n vals t target k v :
  0 < n -> b <= n -> length target = n -> t + length vals <= n ->
  vals !! k = Some v ->
  write_from b n vals t target !! ((t + k + b) mod n) = Some (Some v).
Proof.
  intros Hn Hb. revert t target k.
  induction vals as [|v0 vals IH]; intros t target k Hlen Hfit Hk; [done|].
  cbn [write_from length] in *. destruct k as [|k].
  - injection Hk as ->. rewrite write_from_other.
    + rewrite Nat.add_0_r. apply list_lookup_insert_eq.
      rewrite Hlen. apply Nat.mod_upper_bound. lia.
    + intros k Hk. rewrite !mod_wrap by lia. repeat case_decide; lia.
  - replace (t + S k) with (S t + k) by lia.
    apply IH; [by rewrite length_insert|lia|done].
Qed.

Lemma filter_all (P : A -> Prop) `{forall x, Decision (P x)} (l : list A) :
  (forall x, x ∈ l -> P x) -> filter P l = l.
Proof.
  induction l as [|x l IH]; intros Hall; [done|].
  rewrite filter_cons_True by (apply Hall; left).
  f_equal. apply IH. intros y Hy. apply Hall. by right.
Qed.

Lemma filter_none (P : A -> Prop) `{forall x, Decision (P x)} (l : list A) :
  (forall x, x ∈ l -> ¬ P x) -> filter P l = [].
Proof.
  induction l as [|x l IH]; intros Hnone; [done|].
  rewrite filter_cons_False by (apply Hnone; left).
  apply IH. intros y Hy. apply Hnone. by right.
Qed.

Lemma rotate_Permutation (l : list A) b : rotate b l ≡ₚ l.
Proof.
  unfold rotate. rewrite Permutation_app_comm. by rewrite take_drop.
Qed.

(** A sequence cut at a swath: what is before, the swath, what is after. *)
Lemma swath_split main_seq swath :
  start swath <= stop swath ->
  main_seq = take (start swath) main_seq ++ slice_get main_seq swath
             ++ drop (stop swath) main_seq.
Proof.
  intros Hle. unfold slice_get.
  rewrite <-(take_drop (start swath) main_seq) at 1. f_equal.
  rewrite <-(take_drop (stop swath - start swath)
               (drop (start swath) main_seq)) at 1.
  f_equal. rewrite drop_drop. f_equal. lia.
Qed.

Lemma accepted_Permutation main_seq secondary_seq swath :
  NoDup main_seq -> secondary_seq ≡ₚ main_seq ->
  start swath <= stop swath ->
  accepted (slice_get main_seq swath) (stop swath) secondary_seq
  ≡ₚ take (start swath) main_seq ++ drop (stop swath) main_seq.
Proof.
  intros Hnd Hperm Hle. unfold accepted.
  rewrite rotate_Permutation, Hperm.
  rewrite (swath_split main_seq swath Hle) in Hnd |- * at 1.
  apply NoDup_app in Hnd as (_ & Hbefore & Hnd).
  apply NoDup_app in Hnd as (_ & Hafter & _).
  rewrite !filter_app.
  rewrite (filter_none _ (slice_get main_seq swath)) by (intros x Hx Hn; done).
  rewrite filter_all; last first.
  { intros x Hx Hsw. apply (Hbefore x Hx). apply elem_of_app. by left. }
  rewrite filter_all; [done|].
  intros x Hx Hsw. by apply (Hafter x Hsw).
Qed.

Lemma length_slice_get (l : list A) swath :
  stop swath <= length l ->
  length (slice_get l swath) = stop swath - start swath.
Proof.
  intros Hstop. unfold slice_get. rewrite length_take, length_drop. lia.
Qed.

Lemma length_accepted main_seq secondary_seq swath :
  NoDup main_seq -> secondary_seq ≡ₚ main_seq ->
  start swath <= stop swath <= length main_seq ->
  length (accepted (slice_get main_seq swath) (stop swath) secondary_seq)
  = start swath + (length main_seq - stop swath).
Proof.
  intros Hnd Hperm [Hle Hstop].
  rewrite (accepted_Permutation main_seq secondary_seq swath) by done.
  rewrite length_app, length_take, length_drop. lia.
Qed.

Lemma prefilled_child main_seq swath :
  start swath <= stop swath <= length main_seq ->
  slice_set (replicate (length main_seq) None) swath
    (Some <$> slice_get main_seq swath)
  = replicate (start swath) None
    ++ (Some <$> slice_get main_seq swath)
    ++ replicate (length main_seq - stop swath) None.
Proof.
  intros [Hle Hstop]. unfold slice_set.
  rewrite take_replicate, drop_replicate.
  by rewrite Nat.min_l, Nat.max_r by lia.
Qed.

Lemma prefilled_values main_seq swath :
  start swath <= stop swath <= length main_seq ->
  slice_get
    (slice_set (replicate (length main_seq) None) swath
       (Some <$> slice_get main_seq swath)) swath
  = Some <$> slice_get main_seq swath.
Proof.
  intros Hsw. rewrite prefilled_child by done. unfold slice_get at 1.
  rewrite drop_app_length' by (by rewrite length_replicate).
  apply take_app_length'.
  rewrite length_fmap, length_slice_get; lia.
Qed.

Lemma ox1_with_run {St} swath main_seq secondary_seq (s : St) :
  NoDup main_seq -> secondary_seq ≡ₚ main_seq ->
  start swath <= stop swath <= length main_seq ->
  ox1_with swath main_seq secondary_seq s
  = (Ret (Some <$> ox1_child swath main_seq secondary_seq), s).
Proof.
  intros Hnd Hperm Hsw.
  pose proof (Permutation_length Hperm) as Hlen.
  destruct (decide (length main_seq = 0)) as [Hnil|Hpos].
  { destruct main_seq; [|done]. apply Permutation_nil_r in Hperm as ->.
    destruct swath as [a b]. cbn in Hsw.
    assert (a = 0) as -> by lia. assert (b = 0) as -> by lia. done. }
  unfold ox1_with, _fill_missing_genes.
  rewrite prefilled_values by done.
  rewrite <-(length_rotate secondary_seq (stop swath)) at 1.
  erewrite bind_ret; last first.
  { apply fill_loop_run; [lia| |].
    - rewrite prefilled_child, !length_app, !length_replicate, length_fmap,
        length_slice_get by lia. lia.
    - intros i Hi. rewrite length_rotate in Hi.
      by rewrite rotate_lookup_mod. }
  unfold ret. cbn [fst]. do 2 f_equal.
  fold (accepted (slice_get main_seq swath) (stop swath) secondary_seq).
  unfold ox1_child.
  pose proof (length_accepted main_seq secondary_seq swath Hnd Hperm Hsw)
    as Hrest.
  pose proof (prefilled_child main_seq swath Hsw) as Hchild0.
  pose proof (length_slice_get main_seq swath (proj2 Hsw)) as Hsw_len.
  rewrite Hlen.
  set (rest := accepted _ _ _) in *.
  set (sw := slice_get main_seq swath) in *.
  set (n := length main_seq) in *.
  set (child0 := slice_set _ _ _) in *.
  assert (Hchild0_len : length child0 = n).
  { rewrite Hchild0, !length_app, !length_replicate, length_fmap. lia. }
  apply list_eq. intros p.
  destruct (decide (p < n)) as [Hp|Hp]; last first.
  { rewrite !lookup_ge_None_2; [done| |].
    - rewrite length_fmap, !length_app, length_drop, length_take. lia.
    - rewrite length_write_from. lia. }
  rewrite list_lookup_fmap.
  destruct (decide (p < start swath)) as [Hfront|Hnfront];
    [|destruct (decide (p < stop swath)) as [Hin|Hback]].
  - (* written after the wrap *)
    rewrite lookup_app_l by (rewrite length_drop; lia).
    rewrite lookup_drop.
    destruct (lookup_lt_is_Some_2 rest (n - stop swath + p)) as [v Hv]; [lia|].
    rewrite Hv. cbn.
    replace p with ((0 + (n - stop swath + p) + stop swath) mod n) at 1.
    + apply write_from_written; [lia..|done|lia|done].
    + rewrite mod_wrap by lia. case_decide; lia.
  - (* the swath, never written *)
    rewrite write_from_other; last first.
    { intros k Hk. rewrite mod_wrap by lia. case_decide; lia. }
    rewrite Hchild0.
    rewrite (lookup_app_r (replicate _ _)) by (rewrite length_replicate; lia).
    rewrite (lookup_app_l (Some <$> sw))
      by (rewrite length_replicate, length_fmap; lia).
    rewrite (lookup_app_r (drop _ _)) by (rewrite length_drop; lia).
    rewrite (lookup_app_l sw) by (rewrite length_drop; lia).
    rewrite list_lookup_fmap, length_replicate, length_drop.
    do 2 f_equal. lia.
  - (* written before the wrap *)
    rewrite (lookup_app_r (drop _ _)) by (rewrite length_drop; lia).
    rewrite (lookup_app_r sw) by (rewrite length_drop; lia).
    rewrite length_drop.
    rewrite lookup_take_lt by lia.
    destruct (lookup_lt_is_Some_2 rest (p - stop swath)) as [v Hv]; [lia|].
    replace (p - (length rest - (n - stop swath)) - length sw)
      with (p - stop swath) by lia.
    rewrite Hv. cbn.
    replace p with ((0 + (p - stop swath) + stop swath) mod n) at 1.
    + apply write_from_written; [lia..|done|lia|done].
    + rewrite mod_wrap by lia. case_decide; lia.
Qed.

Lemma ox1_child_Permutation swath main_seq secondary_seq :
  NoDup main_seq -> secondary_seq ≡ₚ main_seq ->
  start swath <= stop swath ->
  ox1_child swath main_seq secondary_seq ≡ₚ main_seq.
Proof.
  intros Hnd Hperm Hle. unfold ox1_child. cbn zeta.
  set (rest := accepted _ _ _).
  rewrite (Permutation_app_comm (drop _ rest)), <-!(assoc_L (++)).
  rewrite take_drop. unfold rest.
  rewrite accepted_Permutation by done.
  rewrite (swath_split main_seq swath Hle) at 4.
  by rewrite (assoc_L (++)), (Permutation_app_comm (slice_get _ _)),
    <-(assoc_L (++)).
Qed.

Lemma ox1_run fuel swath main_seq secondary_seq g g' :
  NoDup main_seq -> secondary_seq ≡ₚ main_seq ->
  _get_valid_swath fuel (Z.of_nat (length main_seq)) g = (Ret swath, g') ->
  ox1 fuel main_seq secondary_seq g
  = (Ret (Some <$> ox1_child swath main_seq secondary_seq), g').
Proof.
  intros Hnd Hperm Hswath. unfold ox1.
  erewrite bind_ret; last first.
  { unfold py_assert.
    by rewrite (proj2 (Nat.eqb_eq _ _) (eq_sym (Permutation_length Hperm))). }
  rewrite (bind_ret _ _ _ _ _ Hswath).
  apply _get_valid_swath_ret in Hswath as (_ & [Hlt Hstop] & _).
  apply ox1_with_run; [done..|lia].
Qed.

(** C4: for two parent tours of equal length N >= 3 and a fixed valid
    swath [start, stop), the child returned by [ox1] is uniquely determined
    (every run that draws this swath returns the same child); its positions
    in [start, stop) equal the primary parent's values at those positions,
    and its remaining positions are filled with the values of the secondary
    parent taken in cyclic order starting at index stop modulo N, skipping
    values already present in the swath, written into the child's empty
    positions also starting at index stop and advancing cyclically modulo
    N. *)
Theorem ox1_child_of_fixed_swath swath main_seq secondary_seq :
  NoDup main_seq -> secondary_seq ≡ₚ main_seq ->
  start swath <= stop swath <= length main_seq ->
  exists child : list (option A),
    (forall fuel g g',
       _get_valid_swath fuel (Z.of_nat (length main_seq)) g = (Ret swath, g') ->
       ox1 fuel main_seq secondary_seq g = (Ret child, g'))
    /\ length child = length main_seq
    /\ (forall i, start swath <= i < stop swath ->
          child !! i = Some <$> main_seq !! i)
    /\ length (accepted (slice_get main_seq swath) (stop swath) secondary_seq)
       = length main_seq - (stop swath - start swath)
    /\ (forall k v,
          accepted (slice_get main_seq swath) (stop swath) secondary_seq !! k
          = Some v ->
          child !! ((stop swath + k) mod length main_seq) = Some (Some v)).
Proof.
  intros Hnd Hperm Hsw.
  pose proof (length_accepted _ _ _ Hnd Hperm Hsw) as Hrest.
  pose proof (length_slice_get main_seq swath (proj2 Hsw)) as Hsw_len.
  exists (Some <$> ox1_child swath main_seq secondary_seq).
  split; [|split; [|split; [|split]]].
  - intros fuel g g'. by apply ox1_run.
  - by rewrite length_fmap, ox1_child_Permutation by (done || lia).
  - intros i Hi. rewrite list_lookup_fmap. f_equal. unfold ox1_child.
    rewrite lookup_app_r by (rewrite length_drop; lia).
    rewrite lookup_app_l by (rewrite length_drop; lia).
    rewrite length_drop, Hrest. unfold slice_get.
    rewrite lookup_take_lt, lookup_drop by lia.
    f_equal. lia.
  - lia.
  - intros k v Hk. pose proof (lookup_lt_Some _ _ _ Hk) as Hlt.
    rewrite list_lookup_fmap. unfold ox1_child.
    rewrite mod_wrap by lia. case_decide as Hwrap.
    + rewrite lookup_app_r by (rewrite length_drop; lia).
      rewrite lookup_app_r by (rewrite length_drop; lia).
      rewrite lookup_take_lt by (rewrite length_drop; lia).
      rewrite length_drop.
      replace (stop swath + k - _ - _) with k by lia.
      by rewrite Hk.
    + rewrite lookup_app_l by (rewrite length_drop; lia).
      rewrite lookup_drop.
      replace (_ + (stop swath + k - length main_seq)) with k by lia.
      by rewrite Hk.
Qed.

End Crossover_facts.

(** Parents that are not permutations of one another are outside the
    theorem for a reason: the fill then writes over the swath. *)
Remark ox1_of_unrelated_parents :
  fst (ox1_with (mk_slice 0 2) [1; 2; 3]%Z [4; 5; 6]%Z tt)
  = Ret [Some 4; Some 5; Some 6]%Z.
Proof. reflexivity. Qed.

Lemma ox1_child_of_fixed_swath_witness :
  exists child : list (option Z),
    (forall fuel g g',
       _get_valid_swath fuel 5 g = (Ret (mk_slice 1 3), g') ->
       ox1 fuel [1; 2; 3; 4; 5]%Z [5; 4; 3; 2; 1]%Z g = (Ret child, g'))
    /\ length child = 5
    /\ (forall i, 1 <= i < 3 -> child !! i = Some <$> [1; 2; 3; 4; 5]%Z !! i)
    /\ length (accepted [2; 3]%Z 3 [5; 4; 3; 2; 1]%Z) = 3
    /\ (forall k v,
          accepted [2; 3]%Z 3 [5; 4; 3; 2; 1]%Z !! k = Some v ->
          child !! ((3 + k) mod 5) = Some (Some v)).
Proof.
  apply (ox1_child_of_fixed_swath (mk_slice 1 3)
           [1; 2; 3; 4; 5]%Z [5; 4; 3; 2; 1]%Z).
  - compute_done.
  - apply (reverse_Permutation [1; 2; 3; 4; 5]%Z).
  - simpl. lia.
Defined.

(** ** The permutation invariant *)

Lemma permutation_of_nodes_iff graph t :
  permutation_of_nodes graph t <-> t ≡ₚ node_set graph.
Proof.
  split.
  - intros (_ & Hnd & Hset).
    apply NoDup_Permutation; [done|apply NoDup_remove_dups|done].
  - intros Hperm. split; [by rewrite Hperm|]. split.
    + rewrite Hperm. apply NoDup_remove_dups.
    + intros x. by rewrite Hperm.
Qed.

Lemma min_by_elem key best candidates :
  min_by key best candidates ∈ best :: candidates.
Proof.
  revert best. induction candidates as [|x candidates IH]; intros best; cbn.
  - left.
  - specialize (IH (if (key x <? key best)%Z then x else best)).
    apply elem_of_cons in IH as [->|IH].
    + destruct (key x <? key best)%Z; [right; left|left].
    + right. by right.
Qed.

Lemma set_remove_Permutation x s :
  NoDup s -> x ∈ s -> s ≡ₚ x :: set_remove x s.
Proof.
  unfold set_remove. induction s as [|y s IH]; intros Hnd Hx.
  - by apply elem_of_nil in Hx.
  - apply NoDup_cons in Hnd as [Hy Hnd].
    destruct (decide (y = x)) as [->|Hne].
    + rewrite filter_cons_False by (by intros Hn).
      rewrite filter_all; [done|]. intros z Hz ->. done.
    + rewrite filter_cons_True by done.
      apply elem_of_cons in Hx as [->|Hx]; [done|].
      rewrite (IH Hnd Hx) at 1. apply perm_swap.
Qed.

Lemma greedy_loop_Permutation fuel graph prev_node available_nodes t :
  NoDup available_nodes -> length available_nodes = fuel ->
  greedy_loop fuel graph prev_node available_nodes t ≡ₚ t ++ available_nodes.
Proof.
  revert prev_node available_nodes t.
  induction fuel as [|fuel IH]; intros prev_node available_nodes t Hnd Hlen.
  - destruct available_nodes; [|done]. cbn. by rewrite app_nil_r.
  - destruct available_nodes as [|c cs]; [done|]. cbn [greedy_loop].
    set (next_node := min_by _ c cs).
    assert (Hnext : next_node ∈ c :: cs) by apply min_by_elem.
    pose proof (set_remove_Permutation _ _ Hnd Hnext) as Hrem.
    rewrite IH.
    + rewrite <-(assoc_L (++)). cbn. by rewrite <-Hrem.
    + apply NoDup_filter, Hnd.
    + apply Permutation_length in Hrem. cbn [length] in Hrem, Hlen. lia.
Qed.

Lemma greedy_returns {St} graph (s : St) :
  node_set graph ≠ [] ->
  exists t, greedy graph s = (Ret t, s) /\ t ≡ₚ node_set graph.
Proof.
  unfold greedy, node_set. intros Hne.
  pose proof (NoDup_remove_dups (nodes graph)) as Hnd.
  destruct (remove_dups (nodes graph)) as [|prev_node available_nodes];
    [done|].
  apply NoDup_cons in Hnd as [_ Hnd].
  eexists. split; [done|].
  by rewrite greedy_loop_Permutation.
Qed.

Lemma reverse_swath_Permutation {A} (seq : list A) swath :
  start swath <= stop swath ->
  slice_set seq swath (reverse (slice_get seq swath)) ≡ₚ seq.
Proof.
  intros Hle. rewrite (swath_split seq swath Hle) at 3.
  unfold slice_set. rewrite reverse_Permutation.
  by rewrite Nat.max_r by lia.
Qed.

Lemma sim_Permutation {A} fuel (seq : list A) g :
  fst (snd (sim fuel (seq, g))) ≡ₚ seq.
Proof.
  rewrite sim_unfold. destruct (2 <? _)%Z; [|done].
  destruct (_get_valid_swath _ _ _) as [[swath|e|] g'] eqn:Hswath; [|done..].
  apply _get_valid_swath_ret in Hswath as (_ & [Hlt _] & _).
  cbn. apply reverse_swath_Permutation. lia.
Qed.

Lemma ox1_unfold {A} `{EqDecision A} fuel (main_seq secondary_seq : list A) g :
  length main_seq = length secondary_seq ->
  ox1 fuel main_seq secondary_seq g =
    match _get_valid_swath fuel (Z.of_nat (length main_seq)) g with
    | (Ret swath, g') => ox1_with swath main_seq secondary_seq g'
    | (Raise e, g') => (Raise e, g')
    | (OutOfFuel, g') => (OutOfFuel, g')
    end.
Proof.
  intros Hlen. unfold ox1, bind at 1, py_assert.
  by rewrite (proj2 (Nat.eqb_eq _ _) Hlen).
Qed.

(** C1: for every graph whose node set has at least 3 nodes, every tour
    produced by the greedy constructor, by [ox1] applied to two tours that
    are permutations of the node set and have equal length, or by [sim]
    applied in place to such a tour, is a permutation of the full node set:
    same length as the node set, no duplicate elements, and set-equal to
    the node set. *)
Theorem tours_are_permutations (graph : Graph) :
  3 <= length (node_set graph) -> permutation_invariant graph.
Proof.
  intros Hnodes. split; [|split].
  - intros St s. destruct (greedy_returns graph s) as (t & Hrun & Hperm).
    { intros Hnil. rewrite Hnil in Hnodes. cbn in Hnodes. lia. }
    exists t. split; [done|]. by apply permutation_of_nodes_iff.
  - intros fuel main_seq secondary_seq g child g' Hmain Hsec _ Hrun.
    apply permutation_of_nodes_iff in Hsec.
    pose proof Hmain as (_ & Hnd & _).
    apply permutation_of_nodes_iff in Hmain.
    assert (Hperm : secondary_seq ≡ₚ main_seq) by (by rewrite Hmain, Hsec).
    destruct (_get_valid_swath fuel (Z.of_nat (length main_seq)) g)
      as [[swath|e|] g1] eqn:Hswath.
    + rewrite (ox1_run _ _ _ _ _ _ Hnd Hperm Hswath) in Hrun.
      injection Hrun as <- <-.
      apply _get_valid_swath_ret in Hswath as (_ & [Hlt _] & _).
      eexists. split; [done|]. apply permutation_of_nodes_iff.
      rewrite ox1_child_Permutation; [done..|lia].
    + rewrite ox1_unfold, Hswath in Hrun by (by rewrite Hperm). done.
    + rewrite ox1_unfold, Hswath in Hrun by (by rewrite Hperm). done.
  - intros fuel t g Ht. apply permutation_of_nodes_iff.
    apply permutation_of_nodes_iff in Ht. by rewrite sim_Permutation.
Qed.

Lemma tours_are_permutations_witness : permutation_invariant square_graph.
Proof. apply tours_are_permutations. vm_compute. lia. Defined.

(** ** The heap of [heapq] *)

(** Linear arithmetic with the divisions by two of the heap's index
    computations. *)
Ltac div_lia := zify; Z.to_euclidean_division_equations; lia.

Section Heapq_facts.
Context {A : Type} `{Inhabited A} (ltb : A -> A -> bool).
Implicit Types (heap : list A) (x newitem : A).

(** The loops stop on their conditions, not on their fuel: more fuel than
    the bound changes nothing. *)
Lemma siftdown_loop_fuel fuel fuel' newitem startpos heap pos :
  pos <= fuel -> pos <= fuel' ->
  siftdown_loop ltb fuel newitem startpos heap pos
  = siftdown_loop ltb fuel' newitem startpos heap pos.
Proof.
  revert fuel' heap pos.
  induction fuel as [|fuel IH]; intros [|fuel'] heap pos Hfuel Hfuel';
    cbn [siftdown_loop]; try done.
  - assert (pos = 0) as -> by lia. by rewrite (proj2 (Nat.ltb_ge _ _)) by lia.
  - assert (pos = 0) as -> by lia. by rewrite (proj2 (Nat.ltb_ge _ _)) by lia.
  - destruct (startpos <? pos) eqn:Hstart; [|done].
    apply Nat.ltb_lt in Hstart. destruct (ltb _ _); [|done].
    apply IH; div_lia.
Qed.

Lemma siftup_loop_fuel fuel fuel' heap pos :
  length heap - pos <= fuel -> length heap - pos <= fuel' ->
  siftup_loop ltb fuel heap pos = siftup_loop ltb fuel' heap pos.
Proof.
  revert fuel' heap pos.
  induction fuel as [|fuel IH]; intros [|fuel'] heap pos Hfuel Hfuel';
    cbn [siftup_loop]; try done.
  - by rewrite (proj2 (Nat.ltb_ge _ _)) by lia.
  - by rewrite (proj2 (Nat.ltb_ge _ _)) by lia.
  - destruct (2 * pos + 1 <? length heap) eqn:Hchild; [|done].
    apply Nat.ltb_lt in Hchild.
    apply IH; rewrite length_insert; case_match; lia.
Qed.

(** Both loops move a hole: putting the item into the hole gives, at every
    turn, a permutation of the same elements. *)
Lemma move_hole heap pos childpos x :
  pos < length heap -> childpos < length heap -> pos ≠ childpos ->
  <[childpos:=x]> (<[pos:=heap !!! childpos]> heap) ≡ₚ <[pos:=x]> heap.
Proof.
  intros Hpos Hchild Hne.
  rewrite <-(list_insert_insert_eq heap pos (heap !!! childpos) x).
  apply Permutation_insert_swap.
  - apply list_lookup_insert_eq. done.
  - rewrite list_lookup_insert_ne by done.
    by apply list_lookup_lookup_total_lt.
Qed.

Lemma siftup_loop_hole fuel heap pos x :
  pos < length heap ->
  length (siftup_loop ltb fuel heap pos).1 = length heap
  /\ (siftup_loop ltb fuel heap pos).2 < length heap
  /\ <[(siftup_loop ltb fuel heap pos).2:=x]> (siftup_loop ltb fuel heap pos).1
     ≡ₚ <[pos:=x]> heap.
Proof.
  revert heap pos. induction fuel as [|fuel IH]; intros heap pos Hpos; [done|].
  cbn [siftup_loop]. destruct (2 * pos + 1 <? length heap) eqn:Hchild; [|done].
  apply Nat.ltb_lt in Hchild.
  set (childpos := if _ && _ then _ else _).
  assert (Hc : childpos < length heap /\ pos ≠ childpos).
  { unfold childpos. destruct (2 * pos + 1 + 1 <? length heap) eqn:Hright;
      [apply Nat.ltb_lt in Hright|]; cbn; [case_match|]; lia. }
  destruct Hc as [Hc Hne].
  destruct (IH (<[pos:=heap !!! childpos]> heap) childpos) as (Hlen & Hlt & Hperm).
  { by rewrite length_insert. }
  rewrite length_insert in Hlen, Hlt.
  split; [done|]. split; [done|].
  rewrite Hperm. by apply move_hole.
Qed.

Lemma siftdown_loop_hole fuel newitem startpos heap pos x :
  pos < length heap ->
  length (siftdown_loop ltb fuel newitem startpos heap pos).1 = length heap
  /\ (siftdown_loop ltb fuel newitem startpos heap pos).2 < length heap
  /\ <[(siftdown_loop ltb fuel newitem startpos heap pos).2:=x]>
       (siftdown_loop ltb fuel newitem startpos heap pos).1
     ≡ₚ <[pos:=x]> heap.
Proof.
  revert heap pos. induction fuel as [|fuel IH]; intros heap pos Hpos; [done|].
  cbn [siftdown_loop]. destruct (startpos <? pos) eqn:Hstart; [|done].
  apply Nat.ltb_lt in Hstart.
  destruct (ltb newitem (heap !!! ((pos - 1) / 2))); [|done].
  assert (Hparent : (pos - 1) / 2 < pos) by div_lia.
  destruct (IH (<[pos:=heap !!! ((pos - 1) / 2)]> heap) ((pos - 1) / 2))
    as (Hlen & Hlt & Hperm).
  { rewrite length_insert. lia. }
  rewrite length_insert in Hlen, Hlt.
  split; [done|]. split; [done|].
  rewrite Hperm. apply move_hole; lia.
Qed.

Lemma _siftdown_Permutation heap startpos pos :
  pos < length heap -> _siftdown ltb heap startpos pos ≡ₚ heap.
Proof.
  intros Hpos. unfold _siftdown.
  destruct (siftdown_loop_hole pos (heap !!! pos) startpos heap pos
              (heap !!! pos) Hpos) as (_ & _ & Hperm).
  destruct (siftdown_loop _ _ _ _ _ _) as [heap' pos']. cbn in Hperm.
  rewrite Hperm. by rewrite list_insert_id by (by apply list_lookup_lookup_total_lt).
Qed.

Lemma _siftup_Permutation heap pos :
  pos < length heap -> _siftup ltb heap pos ≡ₚ heap.
Proof.
  intros Hpos. unfold _siftup.
  destruct (siftup_loop_hole (length heap) heap pos (heap !!! pos) Hpos)
    as (Hlen & Hlt & Hperm).
  destruct (siftup_loop _ _ _ _) as [heap' pos']. cbn in Hlen, Hlt, Hperm.
  rewrite _siftdown_Permutation by (rewrite length_insert; lia).
  rewrite Hperm. by rewrite list_insert_id by (by apply list_lookup_lookup_total_lt).
Qed.

Lemma heappushpop_replaces item top heap :
  ltb top item = true ->
  exists heap', heappushpop ltb item (top :: heap) = (Ret top, heap')
    /\ heap' ≡ₚ item :: heap.
Proof.
  intros Hlt. unfold heappushpop. rewrite Hlt. eexists. split; [done|].
  rewrite _siftup_Permutation; [done|]. cbn. lia.
Qed.

End Heapq_facts.

Section Heap_order.
Context {A : Type} `{Inhabited A} (ltb : A -> A -> bool) (R : A -> A -> Prop).
Hypothesis R_trans : forall a b c, R a b -> R b c -> R a c.
Hypothesis ltb_true_R : forall a b, ltb a b = true -> R a b.
Hypothesis ltb_false_R : forall a b, ltb a b = false -> R b a.
Implicit Types (heap : list A) (x newitem : A).

Lemma hole_lookup heap pos y k :
  pos < length heap ->
  <[pos:=y]> heap !!! k = if decide (k = pos) then y else heap !!! k.
Proof.
  intros Hpos. rewrite list_lookup_total_insert.
  destruct (decide (k = pos)) as [->|Hne].
  - by rewrite decide_True.
  - rewrite decide_False; [done|]. by intros [-> _].
Qed.

Lemma around_hole_insert heap pos y :
  pos < length heap ->
  around_hole R heap pos -> around_hole R (<[pos:=y]> heap) pos.
Proof.
  intros Hpos [Haway Hgrand]. split.
  - intros j Hj Hne Hparent. rewrite length_insert in Hj.
    rewrite !hole_lookup by done. rewrite !decide_False by done.
    by apply Haway.
  - intros Hpos0 c Hc Hparent. rewrite length_insert in Hc.
    rewrite !hole_lookup by done.
    rewrite !decide_False by div_lia. by apply Hgrand.
Qed.

Lemma siftup_loop_order fuel heap pos :
  pos < length heap -> length heap - pos <= fuel ->
  around_hole R heap pos ->
  around_hole R (siftup_loop ltb fuel heap pos).1
    (siftup_loop ltb fuel heap pos).2
  /\ length heap <= 2 * (siftup_loop ltb fuel heap pos).2 + 1.
Proof.
  revert heap pos.
  induction fuel as [|fuel IH]; intros heap pos Hpos Hfuel Hhole; [lia|].
  cbn [siftup_loop].
  destruct (2 * pos + 1 <? length heap) eqn:Hchild;
    [apply Nat.ltb_lt in Hchild|apply Nat.ltb_ge in Hchild; cbn; split; [done|lia]].
  set (childpos := if _ && _ then _ else _).
  assert (Hc : (childpos = 2 * pos + 1 \/ childpos = 2 * pos + 2)
               /\ childpos < length heap
               /\ forall j, 0 < j < length heap -> (j - 1) / 2 = pos ->
                    j ≠ childpos -> R (heap !!! childpos) (heap !!! j)).
  { unfold childpos.
    destruct (2 * pos + 1 + 1 <? length heap) eqn:Hright;
      [apply Nat.ltb_lt in Hright|apply Nat.ltb_ge in Hright]; cbn [andb].
    - destruct (ltb _ _) eqn:Hlt; cbn [negb].
      + split; [lia|]. split; [lia|]. intros j Hj Hparent Hne.
        assert (j = 2 * pos + 1 + 1) as -> by div_lia.
        by apply ltb_true_R.
      + split; [lia|]. split; [lia|]. intros j Hj Hparent Hne.
        assert (j = 2 * pos + 1) as -> by div_lia.
        by apply ltb_false_R.
    - split; [lia|]. split; [lia|]. intros j Hj Hparent Hne. div_lia. }
  destruct Hc as (Hwhich & Hc & Hsibling).
  destruct Hhole as [Haway Hgrand].
  destruct (IH (<[pos:=heap !!! childpos]> heap) childpos) as [Hhole' Hleaf].
  - by rewrite length_insert.
  - rewrite length_insert. lia.
  - split.
    + intros j Hj Hne Hparent. rewrite length_insert in Hj.
      rewrite !hole_lookup by done.
      destruct (decide (j = pos)) as [->|Hj_pos].
      * rewrite decide_False by div_lia. apply Hgrand; [lia|lia|div_lia].
      * destruct (decide ((j - 1) / 2 = pos)) as [Hjp|Hjp].
        -- by apply Hsibling.
        -- by apply Haway.
    + intros Hc0 d Hd Hparent. rewrite length_insert in Hd.
      rewrite !hole_lookup by done.
      rewrite decide_True by div_lia. rewrite decide_False by div_lia.
      replace (heap !!! childpos) with (heap !!! ((d - 1) / 2))
        by (by rewrite Hparent).
      apply Haway; [done|div_lia|div_lia].
  - rewrite length_insert in Hleaf. done.
Qed.

Lemma siftdown_loop_order fuel x heap pos :
  pos < length heap -> pos <= fuel ->
  around_hole R heap pos -> below_children R x heap pos ->
  around_hole R (siftdown_loop ltb fuel x 0 heap pos).1
    (siftdown_loop ltb fuel x 0 heap pos).2
  /\ below_children R x (siftdown_loop ltb fuel x 0 heap pos).1
       (siftdown_loop ltb fuel x 0 heap pos).2
  /\ ((siftdown_loop ltb fuel x 0 heap pos).2 = 0
      \/ R ((siftdown_loop ltb fuel x 0 heap pos).1
             !!! (((siftdown_loop ltb fuel x 0 heap pos).2 - 1) / 2)) x).
Proof.
  revert heap pos.
  induction fuel as [|fuel IH]; intros heap pos Hpos Hfuel Hhole Hbelow.
  { cbn. split; [done|]. split; [done|]. left. lia. }
  cbn [siftdown_loop].
  destruct (0 <? pos) eqn:Hstart;
    [apply Nat.ltb_lt in Hstart
    |apply Nat.ltb_ge in Hstart; cbn; split; [done|]; split; [done|]; left; lia].
  set (parentpos := (pos - 1) / 2).
  assert (Hparent : parentpos < pos) by (unfold parentpos; div_lia).
  destruct (ltb x (heap !!! parentpos)) eqn:Hlt; last first.
  { cbn. split; [done|]. split; [done|]. right. by apply ltb_false_R. }
  apply ltb_true_R in Hlt.
  destruct Hhole as [Haway Hgrand].
  apply IH.
  - rewrite length_insert. lia.
  - lia.
  - split.
    + intros j Hj Hne Hjp. rewrite length_insert in Hj.
      rewrite !hole_lookup by done.
      rewrite (decide_False (P := j = pos)) by (intros ->; done).
      destruct (decide ((j - 1) / 2 = pos)) as [Hchild|Hchild].
      * by apply Hgrand.
      * apply Haway; [done| |done]. by intros ->.
    + intros Hparent0 c Hc Hcp. rewrite length_insert in Hc.
      rewrite !hole_lookup by done.
      rewrite (decide_False (P := (parentpos - 1) / 2 = pos)) by div_lia.
      assert (Hup : R (heap !!! ((parentpos - 1) / 2)) (heap !!! parentpos)).
      { apply Haway; [lia|lia|div_lia]. }
      destruct (decide (c = pos)) as [->|Hc_pos]; [done|].
      apply (R_trans _ _ _ Hup). rewrite <-Hcp. apply Haway; [done..|].
      rewrite Hcp. lia.
  - intros c Hc Hcp. rewrite length_insert in Hc.
    rewrite hole_lookup by done.
    destruct (decide (c = pos)) as [->|Hc_pos]; [done|].
    apply (R_trans _ _ _ Hlt). rewrite <-Hcp. apply Haway; [done..|].
    rewrite Hcp. lia.
Qed.

Lemma fill_hole_heap_on x heap pos :
  pos < length heap ->
  around_hole R heap pos -> below_children R x heap pos ->
  pos = 0 \/ R (heap !!! ((pos - 1) / 2)) x ->
  heap_on R (<[pos:=x]> heap).
Proof.
  intros Hpos [Haway _] Hbelow Habove j Hj. rewrite length_insert in Hj.
  rewrite !hole_lookup by done.
  destruct (decide (j = pos)) as [->|Hj_pos].
  - rewrite decide_False by div_lia. destruct Habove; [lia|done].
  - case_decide as Hjp; [by apply Hbelow|by apply Haway].
Qed.

Lemma _siftup_root_heap_on heap :
  0 < length heap -> around_hole R heap 0 -> heap_on R (_siftup ltb heap 0).
Proof.
  intros Hpos Hhole. unfold _siftup.
  destruct (siftup_loop_order (length heap) heap 0) as [Hhole1 Hleaf];
    [done|lia|done|].
  destruct (siftup_loop_hole ltb (length heap) heap 0 (heap !!! 0) Hpos)
    as (Hlen1 & Hlt1 & _).
  destruct (siftup_loop _ _ _ _) as [heap1 pos1].
  cbn [fst snd] in Hhole1, Hleaf, Hlen1, Hlt1.
  rewrite <-Hlen1 in Hlt1, Hleaf.
  set (x := heap !!! 0). unfold _siftdown.
  set (heap2 := <[pos1:=x]> heap1).
  assert (Hlen2 : length heap2 = length heap1) by apply length_insert.
  assert (Hx : heap2 !!! pos1 = x)
    by (by apply list_lookup_total_insert_eq).
  rewrite Hx.
  destruct (siftdown_loop_order pos1 x heap2 pos1) as (Hhole3 & Hbelow3 & Habove3).
  - lia.
  - done.
  - by apply around_hole_insert.
  - intros c Hc Hcp. rewrite Hlen2 in Hc. div_lia.
  - destruct (siftdown_loop_hole ltb pos1 x 0 heap2 pos1 x) as (Hlen3 & Hlt3 & _);
      [lia|].
    destruct (siftdown_loop _ _ _ _ _ _) as [heap3 pos3].
    cbn [fst snd] in *. apply fill_hole_heap_on; [lia|done..].
Qed.

Lemma heappushpop_heap_on item top heap :
  heap_on R (top :: heap) ->
  heap_on R (heappushpop ltb item (top :: heap)).2.
Proof.
  intros Hheap. unfold heappushpop. destruct (ltb top item); [|done].
  cbn [snd]. apply _siftup_root_heap_on; [cbn; lia|].
  split; [|lia]. intros j Hj Hne Hparent. rewrite length_insert in Hj.
  rewrite !hole_lookup by (cbn; lia). rewrite !decide_False by done.
  by apply Hheap.
Qed.

End Heap_order.

(** ** The population *)

Lemma fitness_le_trans a b c : fitness_le a b -> fitness_le b c -> fitness_le a c.
Proof. unfold fitness_le. lia. Qed.

Lemma member_ltb_fitness a b : (fst a < fst b)%Z -> member_ltb a b = true.
Proof.
  intros Hlt. unfold member_ltb.
  rewrite (proj2 (Z.eqb_neq _ _)) by lia. by apply Z.ltb_lt.
Qed.

Lemma member_ltb_true a b : member_ltb a b = true -> fitness_le a b.
Proof.
  unfold member_ltb, fitness_le.
  destruct (fst a =? fst b)%Z eqn:Heq; [apply Z.eqb_eq in Heq; lia|].
  intros Hlt%Z.ltb_lt. lia.
Qed.

Lemma member_ltb_false a b : member_ltb a b = false -> fitness_le b a.
Proof.
  unfold member_ltb, fitness_le.
  destruct (fst a =? fst b)%Z eqn:Heq; [apply Z.eqb_eq in Heq; lia|].
  intros Hlt%Z.ltb_ge. lia.
Qed.

(** The root of a heap on fitness is a member of least fitness. *)
Lemma fitness_heap_root worst rest m :
  fitness_heap (worst :: rest) -> m ∈ worst :: rest -> fitness_le worst m.
Proof.
  intros Hheap [j Hj]%list_elem_of_lookup_1.
  revert m Hj. induction j as [j IH] using lt_wf_ind. intros m Hj.
  pose proof (lookup_lt_Some _ _ _ Hj) as Hlt.
  destruct (decide (j = 0)) as [->|Hpos].
  { injection Hj as ->. unfold fitness_le. lia. }
  assert (Hparent : (j - 1) / 2 < j) by div_lia.
  specialize (Hheap j ltac:(lia)).
  rewrite (list_lookup_total_correct _ _ _ Hj) in Hheap.
  eapply fitness_le_trans; [|exact Hheap].
  apply (IH _ Hparent). apply list_lookup_lookup_total_lt. lia.
Qed.

Lemma update_population_unfold item worst rest :
  update_population item (worst :: rest) =
    if (fst worst <? fst item)%Z
    then (Ret tt, _siftup member_ltb (item :: rest) 0)
    else (Ret tt, worst :: rest).
Proof.
  unfold update_population, bind, get_state, py_get, ret.
  cbn -[heappushpop Z.ltb].
  destruct (fst worst <? fst item)%Z eqn:Hlt; [|done].
  unfold heappushpop.
  by rewrite member_ltb_fitness by (by apply Z.ltb_lt).
Qed.

Lemma update_population_better item worst rest :
  (fst worst < fst item)%Z ->
  exists population',
    update_population item (worst :: rest) = (Ret tt, population')
    /\ population' ≡ₚ item :: rest.
Proof.
  intros Hlt. rewrite update_population_unfold.
  rewrite (proj2 (Z.ltb_lt _ _) Hlt). eexists. split; [done|].
  apply _siftup_Permutation. cbn. lia.
Qed.

Lemma update_population_not_better item worst rest :
  (fst item <= fst worst)%Z ->
  update_population item (worst :: rest) = (Ret tt, worst :: rest).
Proof.
  intros Hle. rewrite update_population_unfold.
  by rewrite (proj2 (Z.ltb_ge _ _) Hle).
Qed.

Lemma update_population_heap item worst rest :
  fitness_heap (worst :: rest) ->
  fitness_heap (update_population item (worst :: rest)).2.
Proof.
  intros Hheap. rewrite update_population_unfold.
  destruct (fst worst <? fst item)%Z eqn:Hlt; [|done]. cbn [snd].
  pose proof (heappushpop_heap_on member_ltb fitness_le fitness_le_trans
                member_ltb_true member_ltb_false item worst rest Hheap) as Hpush.
  unfold heappushpop in Hpush.
  by rewrite member_ltb_fitness in Hpush by (by apply Z.ltb_lt).
Qed.

(** C3: for every non-empty population organized as a min-heap on fitness
    and every candidate member: the root is a member of minimum fitness; if
    the candidate's fitness is strictly greater than the root's, then
    [update_population] removes exactly the root and inserts the candidate,
    leaving the population size unchanged (and the population a heap);
    otherwise the candidate is discarded and the population is completely
    unchanged. *)
Theorem update_population_replaces_worst (item worst : member)
    (rest : list member) :
  fitness_heap (worst :: rest) ->
  (forall m, m ∈ worst :: rest -> (fst worst <= fst m)%Z)
  /\ ((fst worst < fst item)%Z ->
      exists population',
        update_population item (worst :: rest) = (Ret tt, population')
        /\ population' ≡ₚ item :: rest
        /\ length population' = length (worst :: rest)
        /\ fitness_heap population')
  /\ ((fst item <= fst worst)%Z ->
      update_population item (worst :: rest) = (Ret tt, worst :: rest)).
Proof.
  intros Hheap. split; [|split].
  - intros m Hm. by apply (fitness_heap_root worst rest m).
  - intros Hlt.
    destruct (update_population_better item worst rest Hlt)
      as (population' & Hrun & Hperm).
    exists population'. split; [done|]. split; [done|].
    split; [by rewrite Hperm|].
    pose proof (update_population_heap item worst rest Hheap) as Hheap'.
    apply (f_equal snd) in Hrun. cbn [snd] in Hrun. by rewrite <-Hrun.
  - apply update_population_not_better.
Qed.

Lemma update_population_replaces_worst_witness :
  (forall m, m ∈ [(1, [0; 1; 2]); (3, [0; 2; 1]); (2, [1; 0; 2])]%Z ->
     (1 <= fst m)%Z)
  /\ ((1 < 6)%Z ->
      exists population',
        update_population (6, [2; 1; 0])%Z
          [(1, [0; 1; 2]); (3, [0; 2; 1]); (2, [1; 0; 2])]%Z
        = (Ret tt, population')
        /\ population' ≡ₚ [(6, [2; 1; 0]); (3, [0; 2; 1]); (2, [1; 0; 2])]%Z
        /\ length population' = 3
        /\ fitness_heap population')
  /\ ((6 <= 1)%Z ->
      update_population (6, [2; 1; 0])%Z
        [(1, [0; 1; 2]); (3, [0; 2; 1]); (2, [1; 0; 2])]%Z
      = (Ret tt, [(1, [0; 1; 2]); (3, [0; 2; 1]); (2, [1; 0; 2])]%Z)).
Proof.
  apply (update_population_replaces_worst (6, [2; 1; 0])%Z (1, [0; 1; 2])%Z
           [(3, [0; 2; 1]); (2, [1; 0; 2])]%Z).
  intros j Hj. cbn [length] in Hj.
  destruct j as [|[|[|j]]]; [lia| | |lia]; vm_compute; discriminate.
Defined.

(** The list [generate_population] builds is in the order of its appends:
    it need not be a heap on fitness. *)
Remark generate_population_not_heapified :
  exists population,
    fst (generate_population 5 square_graph 4 (mk_rng (fun i => i) 0))
    = Ret population
    /\ ¬ fitness_heap population.
Proof.
  eexists. split; [reflexivity|]. intros Hheap.
  specialize (Hheap 3 ltac:(cbn; lia)). vm_compute in Hheap. by apply Hheap.
Qed.

(** On a list that is not a heap the member at the root need not be the
    worst, and the root after a call can be less fit than the root before
    it; the least fitness present does not decrease all the same. *)
Remark root_of_unordered_population :
  update_population (6, [])%Z [(5, []); (3, [])]%Z
  = (Ret tt, [(3, []); (6, [])]%Z).
Proof. reflexivity. Qed.

(** C5, at an input where it fails: [generate_population] appends to a
    plain list and nothing in the engine heapifies it, so the member at
    index 0, which [update_population] takes for the worst, is the greedy
    tour.  On the population of three built for the square graph, a
    candidate of fitness -10 evicts the member of fitness -12 at the root
    although the two other members have fitness -18, and the member at the
    root after the call has fitness -18: less than before the call. *)
Theorem update_population_root_gets_worse :
  fst (generate_population 0 square_graph 3 (mk_rng (fun _ => 1) 0))
  = Ret [(-12, [0; 1; 2; 3]); (-18, [0; 2; 1; 3]); (-18, [0; 2; 1; 3])]%Z
  /\ _get_fitness [0; 1; 3; 2]%Z square_graph = (-10)%Z
  /\ update_population (-10, [0; 1; 3; 2])%Z
       [(-12, [0; 1; 2; 3]); (-18, [0; 2; 1; 3]); (-18, [0; 2; 1; 3])]%Z
     = (Ret tt,
        [(-18, [0; 2; 1; 3]); (-18, [0; 2; 1; 3]); (-10, [0; 1; 3; 2])]%Z)
  /\ ¬ fitness_heap
        [(-12, [0; 1; 2; 3]); (-18, [0; 2; 1; 3]); (-18, [0; 2; 1; 3])]%Z.
Proof.
  split; [reflexivity|]. split; [reflexivity|]. split; [reflexivity|].
  intros Hheap. specialize (Hheap 1 ltac:(cbn; lia)).
  vm_compute in Hheap. by apply Hheap.
Qed.

(** What does hold: every lower bound of the fitnesses before a call of
    [update_population] bounds them after it, so the least fitness present
    never decreases; and on a population organized as a min-heap on
    fitness the call leaves a heap whose root, again a member of least
    fitness, is at least as fit as the root before. *)
Lemma least_fitness_never_decreases (item worst : member)
    (rest : list member) :
  (forall bound : Z,
     (forall m, m ∈ worst :: rest -> (bound <= fst m)%Z) ->
     forall m', m' ∈ (update_population item (worst :: rest)).2 ->
       (bound <= fst m')%Z)
  /\ (fitness_heap (worst :: rest) ->
      exists worst' rest',
        (update_population item (worst :: rest)).2 = worst' :: rest'
        /\ fitness_heap (worst' :: rest')
        /\ (forall m', m' ∈ worst' :: rest' -> (fst worst' <= fst m')%Z)
        /\ (fst worst <= fst worst')%Z).
Proof.
  assert (Hbound : forall bound : Z,
    (forall m, m ∈ worst :: rest -> (bound <= fst m)%Z) ->
    forall m', m' ∈ (update_population item (worst :: rest)).2 ->
      (bound <= fst m')%Z).
  { intros bound Hall m'.
    destruct (Z.lt_ge_cases (fst worst) (fst item)) as [Hlt|Hge].
    - destruct (update_population_better item worst rest Hlt)
        as (population' & -> & Hperm).
      cbn [snd]. rewrite Hperm. intros [->|Hm']%elem_of_cons.
      + specialize (Hall worst ltac:(left)). lia.
      + apply Hall. by right.
    - rewrite update_population_not_better by done. apply Hall. }
  split; [done|]. intros Hheap.
  pose proof (update_population_heap item worst rest Hheap) as Hheap'.
  destruct (update_population item (worst :: rest)).2 as [|worst' rest'] eqn:Hafter.
  { exfalso. destruct (Z.lt_ge_cases (fst worst) (fst item)) as [Hlt|Hge].
    - destruct (update_population_better item worst rest Hlt)
        as (population' & Hrun & Hperm).
      rewrite Hrun in Hafter. cbn in Hafter. subst population'.
      by apply Permutation_nil_cons in Hperm.
    - by rewrite update_population_not_better in Hafter by done. }
  exists worst', rest'. split; [done|]. split; [done|]. split.
  - intros m' Hm'. by apply (fitness_heap_root worst' rest' m').
  - apply Hbound.
    + intros m Hm. by apply (fitness_heap_root worst rest m).
    + left.
Qed.

Lemma least_fitness_never_decreases_witness :
  fitness_heap [(1, [0; 1; 2]); (3, [0; 2; 1]); (2, [1; 0; 2])]%Z
  /\ exists worst' rest',
       (update_population (6, [2; 1; 0])%Z
          [(1, [0; 1; 2]); (3, [0; 2; 1]); (2, [1; 0; 2])]%Z).2
       = worst' :: rest'
       /\ fitness_heap (worst' :: rest')
       /\ (forall m', m' ∈ worst' :: rest' -> (fst worst' <= fst m')%Z)
       /\ (1 <= fst worst')%Z.
Proof.
  assert (Hheap :
    fitness_heap [(1, [0; 1; 2]); (3, [0; 2; 1]); (2, [1; 0; 2])]%Z).
  { intros j Hj. cbn [length] in Hj.
    destruct j as [|[|[|j]]]; [lia| | |lia]; vm_compute; discriminate. }
  split; [done|].
  exact (proj2 (least_fitness_never_decreases (6, [2; 1; 0])%Z
                  (1, [0; 1; 2])%Z [(3, [0; 2; 1]); (2, [1; 0; 2])]%Z) Hheap).
Defined.

(** The member [max] finds has the greatest fitness of the population. *)
Lemma max_by_fitness_greatest best population :
  max_by_fitness best population ∈ best :: population
  /\ forall m, m ∈ best :: population ->
       (fst m <= fst (max_by_fitness best population))%Z.
Proof.
  revert best. induction population as [|x population IH]; intros best; cbn.
  - split; [left|]. intros m ->%list_elem_of_singleton. lia.
  - destruct (IH (if (fst best <? fst x)%Z then x else best)) as [Hin Hmax].
    split.
    + apply elem_of_cons in Hin as [->|Hin].
      * destruct (fst best <? fst x)%Z; [right; left|left].
      * right. by right.
    + intros m Hm.
      assert (Hcur : (fst best <= fst (if (fst best <? fst x)%Z then x else best)
                      /\ fst x <= fst (if (fst best <? fst x)%Z then x else best))%Z).
      { destruct (fst best <? fst x)%Z eqn:Hlt;
          [apply Z.ltb_lt in Hlt|apply Z.ltb_ge in Hlt]; lia. }
      specialize (Hmax _ ltac:(left)) as Hcur_max.
      apply elem_of_cons in Hm as [->|[->|Hm]%elem_of_cons]; [lia|lia|].
      apply Hmax. by right.
Qed.


(** ** Termination of the swath selection *)

Lemma runs_bind {St A B} (m : nat -> M St A) (k : nat -> A -> M St B) s
    (P : A -> St -> Prop) (Q : B -> St -> Prop) :
  runs m s P ->
  (forall a s', P a s' -> runs (fun fuel => k fuel a) s' Q) ->
  runs (fun fuel => bind (m fuel) (k fuel)) s Q.
Proof.
  intros (fuel1 & a & s1 & HP & Hm) Hk.
  destruct (Hk a s1 HP) as (fuel2 & b & s2 & HQ & Hk').
  exists (fuel1 `max` fuel2), b, s2. split; [done|].
  intros fuel Hfuel. rewrite (bind_ret _ _ _ a s1) by (apply Hm; lia).
  apply Hk'. lia.
Qed.

Lemma runs_ret {St A} (a : A) (s : St) (P : A -> St -> Prop) :
  P a s -> runs (fun _ => ret a) s P.
Proof. intros HP. exists 0, a, s. split; [done|]. done. Qed.

Lemma runs_weaken {St A} (m : nat -> M St A) s (P Q : A -> St -> Prop) :
  runs m s P -> (forall a s', P a s' -> Q a s') -> runs m s Q.
Proof. intros (fuel0 & a & s' & HP & Hm) HPQ. exists fuel0, a, s'. auto. Qed.

Lemma _random_slice_run seq_length g :
  (0 < seq_length)%Z ->
  _random_slice seq_length g
  = (Ret (draw_at (tape g) seq_length (pos g)), advance 2 g).
Proof.
  intros Hpos. unfold _random_slice, bind, py_assert, sample2, ret.
  rewrite (proj2 (Z.ltb_lt _ _) Hpos).
  destruct (Z.to_nat (seq_length + 1) <? 2) eqn:Hm;
    [apply Nat.ltb_lt in Hm; lia|done].
Qed.

Lemma resample_while_done cond seq_length fuel swath g :
  cond swath = false ->
  resample_while cond seq_length fuel swath g = (Ret swath, g).
Proof. intros Hc. destruct fuel; cbn; by rewrite Hc. Qed.

Lemma advance_advance j k g : advance k (advance j g) = advance (j + k) g.
Proof. unfold advance. cbn. f_equal. lia. Qed.

Lemma resample_while_runs cond seq_length k swath g :
  (0 < seq_length)%Z ->
  cond (draw_at (tape g) seq_length (pos g + 2 * k)) = false ->
  runs (fun fuel => resample_while cond seq_length fuel swath) g
    (fun swath' g' =>
       cond swath' = false /\ exists j, g' = advance (2 * j) g).
Proof.
  intros Hpos. revert swath g.
  induction k as [|k IH]; intros swath g Hgood;
    (destruct (cond swath) eqn:Hc;
     [|exists 0, swath, g; split;
       [split; [done|exists 0; unfold advance; destruct g; cbn; f_equal; lia]
       |by intros; apply resample_while_done]]).
  - exists 1, (draw_at (tape g) seq_length (pos g)), (advance 2 g).
    rewrite Nat.add_0_r in Hgood. split; [split; [done|by exists 1]|].
    intros [|fuel] Hfuel; [lia|]. cbn [resample_while]. rewrite Hc.
    rewrite (bind_ret _ _ _ _ _ (_random_slice_run seq_length g Hpos)).
    by apply resample_while_done.
  - destruct (IH (draw_at (tape g) seq_length (pos g)) (advance 2 g))
      as (fuel0 & swath' & g' & [Hc' [j ->]] & Hrun).
    { unfold advance. cbn [tape pos].
      by replace (pos g + 2 + 2 * k) with (pos g + 2 * S k) by lia. }
    exists (S fuel0), swath', (advance (2 * S j) g). split.
    + split; [done|]. by exists (S j).
    + intros [|fuel] Hfuel; [lia|]. cbn [resample_while]. rewrite Hc.
      rewrite (bind_ret _ _ _ _ _ (_random_slice_run seq_length g Hpos)).
      rewrite Hrun by lia. rewrite advance_advance. do 2 f_equal. lia.
Qed.

Lemma good_draw_inv seq_length swath :
  good_draw seq_length swath = true ->
  too_short swath = false /\ covers_all seq_length swath = false.
Proof.
  unfold good_draw. intros [H1 H2]%andb_prop.
  by apply negb_true_iff in H1, H2.
Qed.

(** On a fair tape the selection returns, with a swath of the sequence. *)
Lemma _get_valid_swath_runs seq_length g :
  (2 < seq_length)%Z -> fair seq_length (tape g) ->
  runs (fun fuel => _get_valid_swath fuel seq_length) g
    (fun swath g' =>
       inside seq_length swath /\ tape g' = tape g).
Proof.
  intros Hlen Hfair.
  destruct (Hfair (pos (advance 2 g))) as [k1 Hk1].
  apply good_draw_inv in Hk1 as [Hk1 _].
  destruct (resample_while_runs too_short seq_length k1
              (draw_at (tape g) seq_length (pos g)) (advance 2 g))
    as (fuel1 & swath1 & g1 & [_ [j1 ->]] & Hrun1); [lia|done|].
  destruct (Hfair (pos (advance (2 * j1) (advance 2 g)))) as [k2 Hk2].
  apply good_draw_inv in Hk2 as [_ Hk2].
  destruct (resample_while_runs (covers_all seq_length) seq_length k2
              swath1 (advance (2 * j1) (advance 2 g)))
    as (fuel2 & swath2 & g2 & [_ [j2 ->]] & Hrun2); [lia|done|].
  assert (Hrun : forall fuel, fuel1 `max` fuel2 <= fuel ->
    _get_valid_swath fuel seq_length g
    = (Ret swath2, advance (2 * j2) (advance (2 * j1) (advance 2 g)))).
  { intros fuel Hfuel. unfold _get_valid_swath.
    erewrite bind_ret; last first.
    { unfold py_assert. rewrite (proj2 (Z.ltb_lt _ _) Hlen). reflexivity. }
    rewrite (bind_ret _ _ _ _ _ (_random_slice_run seq_length g ltac:(lia))).
    rewrite (bind_ret _ _ _ _ _ (Hrun1 fuel ltac:(lia))).
    apply Hrun2. lia. }
  eexists (fuel1 `max` fuel2), swath2, _. split; [|exact Hrun].
  split; [|done].
  by destruct (_get_valid_swath_ret _ _ _ _ _ (Hrun _ (Nat.le_refl _)))
    as (_ & ? & _).
Qed.

(** On the tape of zeros every draw is the swath [0, 1): the loop against
    short swaths never exits. *)
Lemma draw_at_zeros seq_length p :
  (0 < seq_length)%Z -> draw_at (fun _ => 0) seq_length p = mk_slice 0 1.
Proof.
  intros Hpos. unfold draw_at, decode2. cbn [fst snd].
  rewrite !Nat.Div0.mod_0_l, Nat.add_0_r, Nat.add_0_l.
  by rewrite Nat.mod_small by lia.
Qed.

Lemma resample_while_zeros seq_length fuel swath p :
  (0 < seq_length)%Z -> too_short swath = true ->
  fst (resample_while too_short seq_length fuel swath (mk_rng (fun _ => 0) p))
  = OutOfFuel.
Proof.
  intros Hpos. revert swath p.
  induction fuel as [|fuel IH]; intros swath p Hshort; cbn [resample_while];
    rewrite Hshort; [done|].
  rewrite (bind_ret _ _ _ _ _ (_random_slice_run seq_length _ Hpos)).
  apply IH. cbn [tape]. by rewrite draw_at_zeros.
Qed.

Lemma _get_valid_swath_zeros seq_length p :
  (2 < seq_length)%Z ->
  never_returns (fun fuel => _get_valid_swath fuel seq_length)
    (mk_rng (fun _ => 0) p).
Proof.
  intros Hlen fuel. unfold _get_valid_swath.
  erewrite bind_ret; last first.
  { unfold py_assert. rewrite (proj2 (Z.ltb_lt _ _) Hlen). reflexivity. }
  rewrite (bind_ret _ _ _ _ _ (_random_slice_run seq_length _ ltac:(lia))).
  unfold bind at 1.
  pose proof (resample_while_zeros seq_length fuel
                (draw_at (fun _ => 0) seq_length p) (p + 2) ltac:(lia)) as Hloop.
  unfold advance. cbn [tape pos].
  rewrite draw_at_zeros in Hloop |- * by lia. specialize (Hloop eq_refl).
  by destruct (resample_while too_short _ _ _ _) as [[?| |] ?];
    cbn in Hloop |- *.
Qed.

(** ** Runs of the operators on a fair tape *)

Lemma with_local_sim_unfold {A} fuel (seq : list A) g :
  with_local seq (sim fuel) g =
    if (2 <? Z.of_nat (length seq))%Z then
      match _get_valid_swath fuel (Z.of_nat (length seq)) g with
      | (Ret swath, g') =>
          (Ret (slice_set seq swath (reverse (slice_get seq swath))), g')
      | (Raise e, g') => (Raise e, g')
      | (OutOfFuel, g') => (OutOfFuel, g')
      end
    else (Raise AssertionError, g).
Proof.
  unfold with_local. rewrite sim_unfold. destruct (2 <? _)%Z; [|done].
  by destruct (_get_valid_swath _ _ _) as [[?| |] ?].
Qed.

Lemma sim_runs {A} (seq : list A) g :
  2 < length seq -> fair (Z.of_nat (length seq)) (tape g) ->
  runs (fun fuel => with_local seq (sim fuel)) g
    (fun seq' g' =>
       (exists swath, start swath <= stop swath
          /\ seq' = slice_set seq swath (reverse (slice_get seq swath)))
       /\ tape g' = tape g).
Proof.
  intros Hlen Hfair.
  destruct (_get_valid_swath_runs (Z.of_nat (length seq)) g ltac:(lia) Hfair)
    as (fuel0 & swath & g' & [[Hlt _] Htape] & Hrun).
  exists fuel0, (slice_set seq swath (reverse (slice_get seq swath))), g'.
  split.
  - split; [|done]. exists swath. split; [lia|done].
  - intros fuel Hfuel. rewrite with_local_sim_unfold.
    rewrite (proj2 (Z.ltb_lt 2 (Z.of_nat (length seq)))) by lia.
    by rewrite Hrun.
Qed.

(** C7: for every tour of length > 2, [sim] chooses one swath
    [start, stop) and modifies the tour in place so that the elements at
    positions start..stop-1 appear in reversed order while every position
    outside the swath holds the value it held before the call.  Whatever
    the fuel, the call does not raise, a call that returns has reversed the
    swath it drew, and a call still resampling has not touched the list;
    on a tape where good draws keep coming up the call returns, with one
    swath reversed. *)
Theorem sim_reverses_one_swath {A} (seq : list A) (g : rng) :
  2 < length seq ->
  (forall fuel, sim_outcome fuel seq g (sim fuel (seq, g)))
  /\ (fair (Z.of_nat (length seq)) (tape g) ->
      runs (fun fuel => sim fuel) (seq, g)
        (fun _ s' =>
           exists swath,
             start swath < stop swath <= length seq
             /\ reversed_on swath seq (fst s')
             /\ tape (snd s') = tape g)).
Proof.
  intros Hlen. split.
  - intros fuel. rewrite sim_unfold.
    rewrite (proj2 (Z.ltb_lt 2 (Z.of_nat (length seq)))) by lia.
    destruct (_get_valid_swath _ _ _) as [[swath|e|] g'] eqn:Hswath; cbn.
    + exists swath. split; [done|].
      apply _get_valid_swath_ret in Hswath as (_ & [Hlt Hstop] & _).
      split; [lia|]. apply reverse_swath_reversed_on. lia.
    + by eapply _get_valid_swath_no_raise; [|done]; lia.
    + done.
  - intros Hfair.
    destruct (_get_valid_swath_runs (Z.of_nat (length seq)) g ltac:(lia) Hfair)
      as (fuel0 & swath & g' & [[Hlt Hstop] Htape] & Hrun).
    exists fuel0, tt, (slice_set seq swath (reverse (slice_get seq swath)), g').
    split.
    + exists swath. split; [lia|]. split; [|done].
      apply reverse_swath_reversed_on. lia.
    + intros fuel Hfuel. rewrite sim_unfold.
      rewrite (proj2 (Z.ltb_lt 2 (Z.of_nat (length seq)))) by lia.
      by rewrite Hrun.
Qed.

Lemma sim_reverses_one_swath_witness :
  (forall fuel,
     sim_outcome fuel [10; 20; 30; 40; 50]%Z (mk_rng (fun _ => 1) 0)
       (sim fuel ([10; 20; 30; 40; 50]%Z, mk_rng (fun _ => 1) 0)))
  /\ runs (fun fuel => sim fuel)
       ([10; 20; 30; 40; 50]%Z, mk_rng (fun _ => 1) 0)
       (fun _ s' =>
          exists swath,
            start swath < stop swath <= 5
            /\ reversed_on swath [10; 20; 30; 40; 50]%Z (fst s')
            /\ tape (snd s') = fun _ => 1).
Proof.
  split.
  - apply (sim_reverses_one_swath [10; 20; 30; 40; 50]%Z
             (mk_rng (fun _ => 1) 0)).
    simpl. lia.
  - apply (sim_reverses_one_swath [10; 20; 30; 40; 50]%Z
             (mk_rng (fun _ => 1) 0)).
    + simpl. lia.
    + intros p. by exists 0.
Defined.

Lemma fmap_reverse_swath {A B} (f : A -> B) (seq : list A) swath :
  slice_set (f <$> seq) swath (reverse (slice_get (f <$> seq) swath))
  = f <$> slice_set seq swath (reverse (slice_get seq swath)).
Proof.
  unfold slice_set, slice_get.
  by rewrite !fmap_app, fmap_reverse, !fmap_take, !fmap_drop.
Qed.

Lemma ox1_runs {A} `{EqDecision A} (main_seq secondary_seq : list A) g :
  NoDup main_seq -> secondary_seq ≡ₚ main_seq -> 2 < length main_seq ->
  fair (Z.of_nat (length main_seq)) (tape g) ->
  runs (fun fuel => ox1 fuel main_seq secondary_seq) g
    (fun child g' =>
       (exists t, child = Some <$> t /\ t ≡ₚ main_seq) /\ tape g' = tape g).
Proof.
  intros Hnd Hperm Hlen Hfair.
  destruct (_get_valid_swath_runs (Z.of_nat (length main_seq)) g
              ltac:(lia) Hfair)
    as (fuel0 & swath & g' & [[Hlt _] Htape] & Hrun).
  exists fuel0, (Some <$> ox1_child swath main_seq secondary_seq), g'.
  split.
  - split; [|done]. eexists. split; [done|].
    apply ox1_child_Permutation; [done..|lia].
  - intros fuel Hfuel. apply ox1_run; [done..|]. by apply Hrun.
Qed.

(** ** The initial population *)

(** What [for_each] keeps: an invariant of the loop's variables indexed by
    the number of turns made. *)
Lemma for_each_invariant {St X B} (xs : list X) (body : B -> X -> M St B)
    (Inv : nat -> B -> Prop) :
  (forall i acc x s acc' s',
     Inv i acc -> body acc x s = (Ret acc', s') -> Inv (S i) acc') ->
  forall i acc s acc' s',
    Inv i acc -> for_each xs body acc s = (Ret acc', s') ->
    Inv (i + length xs) acc'.
Proof.
  intros Hbody. induction xs as [|x xs IH]; intros i acc s acc' s' Hinv Hrun.
  - injection Hrun as <- <-. by rewrite Nat.add_0_r.
  - cbn [for_each] in Hrun. run_inv Hrun.
    cbn [length]. replace (i + S (length xs)) with (S i + length xs) by lia.
    eapply IH; [|done]. by eapply Hbody.
Qed.

Lemma runs_for_each {St X B} (xs : list X) (body : nat -> B -> X -> M St B)
    (Inv : nat -> B -> St -> Prop) :
  (forall i acc x s,
     Inv i acc s -> runs (fun fuel => body fuel acc x) s (Inv (S i))) ->
  forall i acc s,
    Inv i acc s ->
    runs (fun fuel => for_each xs (body fuel) acc) s (Inv (i + length xs)).
Proof.
  intros Hbody. induction xs as [|x xs IH]; intros i acc s Hinv.
  - cbn. apply runs_ret. by rewrite Nat.add_0_r.
  - cbn [for_each length].
    replace (i + S (length xs)) with (S i + length xs) by lia.
    apply (runs_bind (fun fuel => body fuel acc x)
             (fun fuel acc' => for_each xs (body fuel) acc') s (Inv (S i))).
    + by apply Hbody.
    + intros acc' s' Hinv'. by apply IH.
Qed.

Lemma greedy_run {St} graph (s : St) :
  node_set graph ≠ [] ->
  exists t, greedy graph s = (Ret t, s) /\ permutation_of_nodes graph t.
Proof.
  intros Hne. destruct (greedy_returns graph s Hne) as (t & Hrun & Hperm).
  exists t. split; [done|]. by apply permutation_of_nodes_iff.
Qed.

Lemma generate_population_unfold fuel graph size t g :
  greedy graph g = (Ret t, g) ->
  generate_population fuel graph size g =
    for_each (seq 0 (Z.to_nat (size - 1)))
      (fun population _ =>
         let* mutated_tour := with_local t (sim fuel) in
         let item := (_get_fitness mutated_tour graph, mutated_tour) in
         ret (population ++ [item]))
      [(_get_fitness t graph, t)] g.
Proof. intros Hgreedy. unfold generate_population. by rewrite (bind_ret _ _ _ _ _ Hgreedy). Qed.

Lemma generate_population_runs graph size g :
  3 <= length (node_set graph) ->
  fair (Z.of_nat (length (node_set graph))) (tape g) ->
  runs (fun fuel => generate_population fuel graph size) g
    (fun population g' =>
       Z.of_nat (length population) = Z.max size 1
       /\ valid_members graph population /\ tape g' = tape g).
Proof.
  intros Hnodes Hfair.
  destruct (greedy_run graph g) as (t & Hgreedy & Ht).
  { intros Hnil. rewrite Hnil in Hnodes. cbn in Hnodes. lia. }
  pose proof Ht as (Hlen & _ & _).
  set (Inv := fun (i : nat) (population : list (Z * list Z)) (g' : rng) =>
    length population = S i /\ valid_members graph population
    /\ tape g' = tape g).
  eapply runs_weaken.
  - eapply (runs_bind (fun _ => greedy graph) _ g
              (fun t' g' => t' = t /\ g' = g)).
    { exists 0, t, g. split; [done|]. by intros. }
    intros ? ? [-> ->].
    apply (runs_for_each (seq 0 (Z.to_nat (size - 1)))
             (fun fuel population (_ : nat) =>
                let* mutated_tour := with_local t (sim fuel) in
                ret (population ++
                       [(_get_fitness mutated_tour graph, mutated_tour)]))
             Inv) with (i := 0).
    + intros i population _ g1 (Hi & Hvalid & Htape).
      eapply (runs_bind (fun fuel => with_local t (sim fuel))).
      { apply sim_runs; [lia|]. rewrite Hlen, Htape. done. }
      intros t' g2 [(swath & Hle & ->) Htape2].
      apply runs_ret. split; [|split].
      * rewrite length_app. cbn. lia.
      * apply Forall_app. split; [done|]. apply Forall_singleton. cbn [snd].
        apply permutation_of_nodes_iff.
        rewrite reverse_swath_Permutation by done.
        by apply permutation_of_nodes_iff.
      * by rewrite Htape2.
    + split; [done|]. split; [|done]. by apply Forall_singleton.
  - intros population g' (Hi & Hvalid & Htape). split; [|done].
    rewrite Hi, length_seq. lia.
Qed.

(** C6, as the code has it: [generate_population] never checks [size].
    For [size <= 1] (so also for [size < 1]) and a graph with a node it
    returns the one-member population of the greedy tour, however few
    nodes the graph has; for [size >= 2] and a graph of one or two nodes
    it fails with the [AssertionError] of [sim]'s precondition, and on a
    graph without nodes with the [KeyError] of [pop]; for [size >= 1] and a
    graph of at least 3 nodes, a population it returns has exactly [size]
    members, and it returns one on every fair tape. *)
Theorem generate_population_sizes (fuel : nat) (graph : Graph) (size : Z)
    (g : rng) :
  (node_set graph ≠ [] -> (size <= 1)%Z ->
   exists t, permutation_of_nodes graph t
     /\ generate_population fuel graph size g
        = (Ret [(_get_fitness t graph, t)], g))
  /\ (1 <= length (node_set graph) <= 2 -> (2 <= size)%Z ->
      generate_population fuel graph size g = (Raise AssertionError, g))
  /\ (node_set graph = [] ->
      generate_population fuel graph size g = (Raise KeyError, g))
  /\ (3 <= length (node_set graph) -> (1 <= size)%Z ->
      (forall population g',
         generate_population fuel graph size g = (Ret population, g') ->
         Z.of_nat (length population) = size)
      /\ (fair (Z.of_nat (length (node_set graph))) (tape g) ->
          runs (fun fuel => generate_population fuel graph size) g
            (fun population _ => Z.of_nat (length population) = size))).
Proof.
  split; [|split; [|split]].
  - intros Hne Hsize. destruct (greedy_run graph g Hne) as (t & Hgreedy & Ht).
    exists t. split; [done|].
    rewrite (generate_population_unfold _ _ _ _ _ Hgreedy).
    by replace (Z.to_nat (size - 1)) with 0 by lia.
  - intros Hnodes Hsize. destruct (greedy_run graph g) as (t & Hgreedy & Ht).
    { intros Hnil. rewrite Hnil in Hnodes. cbn in Hnodes. lia. }
    destruct Ht as (Hlen & _ & _).
    rewrite (generate_population_unfold _ _ _ _ _ Hgreedy).
    replace (Z.to_nat (size - 1)) with (S (Z.to_nat (size - 2))) by lia.
    cbn [seq for_each]. unfold bind at 1 2.
    rewrite with_local_sim_unfold.
    by rewrite (proj2 (Z.ltb_ge 2 (Z.of_nat (length t)))) by lia.
  - intros Hnil. unfold generate_population, bind at 1, greedy.
    unfold node_set in Hnil. by rewrite Hnil.
  - intros Hnodes Hsize. split.
    + intros population g' Hrun.
      destruct (greedy_run graph g) as (t & Hgreedy & Ht).
      { intros Hnil. rewrite Hnil in Hnodes. cbn in Hnodes. lia. }
      rewrite (generate_population_unfold _ _ _ _ _ Hgreedy) in Hrun.
      apply (for_each_invariant _ _
               (fun i (population : list (Z * list Z)) => length population = S i))
        with (i := 0) in Hrun.
      * rewrite Hrun, length_seq. lia.
      * intros i acc _ s acc' s' Hi Hbody. run_inv Hbody.
        injection Hbody as <- <-. rewrite length_app. cbn. lia.
      * done.
    + intros Hfair. eapply runs_weaken.
      * by apply generate_population_runs.
      * intros population g' (Hlen & _). cbn beta. lia.
Qed.

Lemma generate_population_sizes_witness :
  fair 4 (fun _ => 1)
  /\ runs (fun fuel => generate_population fuel square_graph 3)
       (mk_rng (fun _ => 1) 0)
       (fun population _ => Z.of_nat (length population) = 3%Z).
Proof.
  assert (Hfair : fair 4 (fun _ => 1)) by (intros p; by exists 0).
  split; [done|].
  apply (generate_population_sizes 0 square_graph 3 (mk_rng (fun _ => 1) 0)).
  - vm_compute. lia.
  - lia.
  - exact Hfair.
Defined.

(** C6 as stated fails: with [size = 0] the call returns a population (of
    one member), and so it does with [size = 1] on a graph of two nodes. *)
Lemma generate_population_accepts_any_size :
  fst (generate_population 0 square_graph 0 (mk_rng (fun _ => 0) 0))
  = Ret [((-12)%Z, [0; 1; 2; 3]%Z)]
  /\ fst (generate_population 0 (mk_graph [0; 1]%Z (fun _ _ => 1%Z)) 1
            (mk_rng (fun _ => 0) 0))
     = Ret [((-2)%Z, [0; 1]%Z)].
Proof. split; reflexivity. Qed.

(** ** The evolutionary loop on a fair tape *)

Lemma runs_on_rng {St A} (m : nat -> M rng A) (p : St) g
    (P : A -> rng -> Prop) :
  runs m g P ->
  runs (fun fuel => on_rng (m fuel)) (p, g)
    (fun a s' => fst s' = p /\ P a (snd s')).
Proof.
  intros (fuel0 & a & g' & HP & Hm). exists fuel0, a, (p, g').
  split; [done|]. intros fuel Hfuel. unfold on_rng. cbn [fst snd].
  by rewrite Hm.
Qed.

Lemma _tournament_selection_run (population : list (Z * list Z)) g :
  2 <= length population ->
  exists t, _tournament_selection population g = (Ret t, advance 2 g)
    /\ t ∈ snd <$> population.
Proof.
  intros Hlen. unfold _tournament_selection, sample2.
  destruct (decode2_distinct (length population) (tape g (pos g))
              (tape g (S (pos g))) Hlen) as (Ha & Hb & _).
  destruct (lookup_lt_is_Some_2 population _ Ha) as [first Hfirst].
  destruct (lookup_lt_is_Some_2 population _ Hb) as [second Hsecond].
  unfold bind at 1.
  rewrite (proj2 (Nat.ltb_ge _ _) Hlen).
  unfold bind, py_get. rewrite Hfirst, Hsecond. unfold ret at 1 2.
  eexists. split; [done|].
  apply list_elem_of_fmap_2.
  destruct (fst first <? fst second)%Z;
    by eapply list_elem_of_lookup_2.
Qed.

Lemma select_two_parents_run (population : list (Z * list Z)) g :
  2 <= length population ->
  exists parent1 parent2,
    select_two_parents population g = (Ret (parent1, parent2), advance 4 g)
    /\ parent1 ∈ snd <$> population /\ parent2 ∈ snd <$> population.
Proof.
  intros Hlen.
  destruct (_tournament_selection_run population g Hlen) as (p1 & Hrun1 & Hp1).
  destruct (_tournament_selection_run population (advance 2 g) Hlen)
    as (p2 & Hrun2 & Hp2).
  exists p1, p2. split; [|done]. unfold select_two_parents.
  rewrite (bind_ret _ _ _ _ _ Hrun1), (bind_ret _ _ _ _ _ Hrun2).
  by rewrite advance_advance.
Qed.

Lemma filled_tour_fmap (t : list Z) : filled_tour (Some <$> t) = Some t.
Proof. induction t as [|x t IH]; [done|]. cbn. by rewrite IH. Qed.

Lemma valid_members_elem graph population t :
  valid_members graph population -> t ∈ snd <$> population ->
  permutation_of_nodes graph t.
Proof.
  intros Hvalid (m & -> & Hm)%list_elem_of_fmap_1.
  by apply (proj1 (Forall_forall _ _) Hvalid).
Qed.

Lemma update_population_valid graph item population :
  population ≠ [] -> valid_members graph population ->
  permutation_of_nodes graph (snd item) ->
  exists population',
    update_population item population = (Ret tt, population')
    /\ length population' = length population
    /\ valid_members graph population'.
Proof.
  intros Hne Hvalid Hitem. destruct population as [|worst rest]; [done|].
  destruct (Z.lt_ge_cases (fst worst) (fst item)) as [Hlt|Hge].
  - destruct (update_population_better item worst rest Hlt)
      as (population' & Hrun & Hperm).
    exists population'. split; [done|]. split; [by rewrite Hperm|].
    unfold valid_members. rewrite Hperm.
    apply Forall_cons. split; [done|].
    by apply Forall_cons in Hvalid as [_ ?].
  - exists (worst :: rest). split; [|done].
    by apply update_population_not_better.
Qed.

Lemma offspring_runs graph main_seq secondary_seq size s :
  3 <= length (node_set graph) -> 0 < size ->
  permutation_of_nodes graph main_seq ->
  permutation_of_nodes graph secondary_seq ->
  fair (Z.of_nat (length (node_set graph))) (tape (snd s)) ->
  evolving graph size (tape (snd s)) s ->
  runs (fun fuel => offspring fuel graph main_seq secondary_seq) s
    (fun _ s' => evolving graph size (tape (snd s)) s').
Proof.
  intros Hnodes Hsize Hmain Hsec Hfair (Hlen & Hvalid & _).
  destruct s as [population g]. cbn [fst snd] in *.
  pose proof Hmain as (Hmain_len & Hnd & _).
  assert (Hperm : secondary_seq ≡ₚ main_seq).
  { apply permutation_of_nodes_iff in Hmain, Hsec. by rewrite Hmain, Hsec. }
  unfold offspring.
  eapply runs_bind.
  { apply runs_on_rng, ox1_runs; [done..|lia|by rewrite Hmain_len]. }
  intros child [population1 g1] (Hpop1 & (t & -> & Ht) & Htape1).
  cbn [fst snd] in Hpop1, Htape1. subst population1.
  eapply (runs_bind (fun _ => on_rng random_le_mutation_proba) _ _
            (fun _ s' => fst s' = population /\ tape (snd s') = tape g)).
  { eexists 0, _, (population, advance 1 g1). split; [by split|]. done. }
  intros mutate [population2 g2] [Hpop2 Htape2].
  cbn [fst snd] in Hpop2, Htape2. subst population2.
  eapply (runs_bind _ _ _
            (fun child' s' =>
               (exists t', child' = Some <$> t' /\ t' ≡ₚ main_seq)
               /\ fst s' = population /\ tape (snd s') = tape g)).
  { destruct mutate.
    - eapply runs_weaken.
      + apply runs_on_rng, sim_runs.
        * rewrite length_fmap, Ht. lia.
        * rewrite length_fmap, Ht, Hmain_len, Htape2. done.
      + intros child' [population3 g3]
          (Hpop3 & (swath & Hle & ->) & Htape3).
        cbn [fst snd] in *. split; [|split; [done|by rewrite Htape3]].
        rewrite fmap_reverse_swath. eexists. split; [done|].
        by rewrite reverse_swath_Permutation.
    - apply runs_ret. split; [|done]. by exists t. }
  intros child' [population3 g3] ((t' & -> & Ht') & Hpop3 & Htape3).
  cbn [fst snd] in Hpop3, Htape3. subst population3.
  assert (Ht'_nodes : permutation_of_nodes graph t').
  { apply permutation_of_nodes_iff. rewrite Ht'.
    by apply permutation_of_nodes_iff. }
  eapply (runs_bind (fun _ => scored (Some <$> t') graph) _ _
            (fun item s' => item = (_get_fitness t' graph, t')
                            /\ s' = (population, g3))).
  { eexists 0, _, _. split; [done|]. intros fuel _.
    unfold scored. by rewrite filled_tour_fmap. }
  intros item s' [-> ->].
  destruct (update_population_valid graph (_get_fitness t' graph, t')
              population) as (population' & Hrun & Hlen' & Hvalid');
    [by intros ->; cbn in Hlen; lia|done|done|].
  exists 0, tt, (population', g3). split.
  - split; [cbn [fst]; lia|]. split; [done|]. done.
  - intros fuel _. unfold on_population. cbn [fst snd]. by rewrite Hrun.
Qed.

Lemma bind_assoc {St A B C} (m : M St A) (k : A -> M St B) (h : B -> M St C) s :
  bind (bind m k) h s = bind m (fun a => bind (k a) h) s.
Proof. unfold bind. by destruct (m s) as [[a| |] s']. Qed.

Lemma bind_ext {St A B} (m : M St A) (k k' : A -> M St B) s :
  (forall a s', k a s' = k' a s') -> bind m k s = bind m k' s.
Proof. intros Hk. unfold bind. destruct (m s) as [[a| |] s']; [apply Hk|done..]. Qed.

Lemma generation_offspring fuel graph s :
  generation fuel graph s =
    (let* population := get_seq in
     let* parents := on_rng (select_two_parents population) in
     let* _ := offspring fuel graph (fst parents) (snd parents) in
     offspring fuel graph (snd parents) (fst parents)) s.
Proof.
  unfold generation, offspring.
  apply bind_ext. intros population s1.
  apply bind_ext. intros parents s2.
  rewrite !bind_assoc. apply bind_ext. intros child1 s3.
  rewrite !bind_assoc. apply bind_ext. intros mutate s4.
  rewrite !bind_assoc. apply bind_ext. intros child1' s5.
  rewrite !bind_assoc. apply bind_ext. intros item s6.
  done.
Qed.

Lemma runs_ext {St A} (m m' : nat -> M St A) s (P : A -> St -> Prop) :
  (forall fuel, m fuel s = m' fuel s) -> runs m' s P -> runs m s P.
Proof.
  intros Hext (fuel0 & a & s' & HP & Hm). exists fuel0, a, s'.
  split; [done|]. intros fuel Hfuel. rewrite Hext. by apply Hm.
Qed.

Lemma generation_runs graph size s :
  3 <= length (node_set graph) -> 2 <= size ->
  fair (Z.of_nat (length (node_set graph))) (tape (snd s)) ->
  evolving graph size (tape (snd s)) s ->
  runs (fun fuel => generation fuel graph) s
    (fun _ s' => evolving graph size (tape (snd s)) s').
Proof.
  intros Hnodes Hsize Hfair Hinv.
  destruct s as [population g]. pose proof Hinv as (Hlen & Hvalid & _).
  cbn [fst snd] in *.
  apply (runs_ext _
           (fun fuel =>
              let* population := get_seq in
              let* parents := on_rng (select_two_parents population) in
              let* _ := offspring fuel graph (fst parents) (snd parents) in
              offspring fuel graph (snd parents) (fst parents)));
    [intros fuel; apply generation_offspring|].
  destruct (select_two_parents_run population g ltac:(lia))
    as (parent1 & parent2 & Hselect & Hp1 & Hp2).
  apply (valid_members_elem graph population) in Hp1, Hp2; [|done..].
  eapply (runs_bind (fun _ => get_seq) _ _
            (fun population' s' => population' = population
                                   /\ s' = (population, g))).
  { by eexists 0, _, _. }
  intros ? ? [-> ->].
  eapply (runs_bind (fun _ => on_rng (select_two_parents population)) _ _
            (fun parents s' => parents = (parent1, parent2)
                               /\ s' = (population, advance 4 g))).
  { eexists 0, _, _. split; [done|]. intros fuel _.
    unfold on_rng. cbn [fst snd]. by rewrite Hselect. }
  intros ? ? [-> ->]. cbn [fst snd].
  eapply runs_bind.
  { apply (offspring_runs graph parent1 parent2 size
             (population, advance 4 g)); [done|lia|done..]. }
  cbn [snd tape advance]. intros u1 s1 Hinv1.
  pose proof Hinv1 as (_ & _ & Htape1).
  eapply runs_weaken.
  - apply (offspring_runs graph parent2 parent1 size s1);
      rewrite ?Htape1; [done|lia|done..].
  - intros u2 s2. by rewrite Htape1.
Qed.

Lemma runs_with_local {St T A} (m : nat -> M (St * T) A) (s0 : St) (t : T)
    (P : St * T -> Prop) :
  runs m (s0, t) (fun _ s' => P s') ->
  runs (fun fuel => with_local s0 (m fuel)) t (fun s' t' => P (s', t')).
Proof.
  intros (fuel0 & a & [s' t'] & HP & Hm). exists fuel0, s', t'.
  split; [done|]. intros fuel Hfuel. unfold with_local. by rewrite Hm.
Qed.

(** C9, as the code has it: the loop over the generations and the loop of
    the greedy constructor are bounded, the two resampling loops of
    [_get_valid_swath] are not: they return on every run on which good
    draws keep coming up.  On such a run, for every graph with at least 3
    nodes and every population size >= 2, the engine makes its
    [max_iterations] generations and returns a tour, a permutation of the
    node set. *)
Theorem genetic_returns_on_fair_tapes (population_size max_iterations : Z)
    (graph : Graph) (g : rng) :
  3 <= length (node_set graph) -> (2 <= population_size)%Z ->
  fair (Z.of_nat (length (node_set graph))) (tape g) ->
  runs (fun fuel =>
          _get_valid_swath fuel (Z.of_nat (length (node_set graph)))) g
    (fun swath _ =>
       inside (Z.of_nat (length (node_set graph))) swath)
  /\ runs (fun fuel =>
             genetic_with population_size max_iterations fuel graph) g
       (fun t _ => permutation_of_nodes graph t).
Proof.
  intros Hnodes Hsize Hfair. split.
  { eapply runs_weaken; [by apply _get_valid_swath_runs; [lia|]|].
    by intros swath g' [? _]. }
  unfold genetic_with.
  eapply runs_bind; [by apply generate_population_runs|].
  intros population g1 (Hlen & Hvalid & Htape1).
  eapply (runs_bind _ _ _
            (fun population' _ =>
               2 <= length population'
               /\ valid_members graph population')).
  { apply (runs_with_local _ population g1
             (fun s' => 2 <= length (fst s') /\ valid_members graph (fst s'))).
    eapply runs_weaken.
    - apply (runs_for_each (seq 0 (Z.to_nat max_iterations))
               (fun fuel (_ : unit) (_ : nat) => generation fuel graph)
               (fun _ _ s' =>
                  evolving graph (length population) (tape g) s'))
        with (i := 0).
      + intros i [] x s Hinv. pose proof Hinv as (_ & _ & Htape).
        eapply runs_weaken.
        * apply (generation_runs graph (length population) s);
            rewrite ?Htape; [done|lia|done..].
        * intros u s'. by rewrite Htape.
      + by split.
    - intros u s' (Hlen' & Hvalid' & _). split; [lia|done]. }
  intros [|first rest] g2 [Hlen2 Hvalid2]; [cbn in Hlen2; lia|].
  apply runs_ret.
  apply (valid_members_elem graph (first :: rest)); [done|].
  apply list_elem_of_fmap_2. apply max_by_fitness_greatest.
Qed.

Lemma genetic_returns_on_fair_tapes_witness :
  runs (fun fuel => _get_valid_swath fuel 4) (mk_rng (fun _ => 1) 0)
    (fun swath _ => inside 4 swath)
  /\ runs (fun fuel => genetic fuel square_graph) (mk_rng (fun _ => 1) 0)
       (fun t _ => permutation_of_nodes square_graph t).
Proof.
  apply (genetic_returns_on_fair_tapes POPULATION_SIZE MAX_ITERATIONS
           square_graph (mk_rng (fun _ => 1) 0)).
  - vm_compute. lia.
  - unfold POPULATION_SIZE. lia.
  - intros p. by exists 0.
Defined.

(** C9 as stated fails: on the tape of zeros every draw is too short, and
    the engine, on a graph of four nodes with its population of 200, is
    still resampling the first swath whatever fuel it is given. *)
Lemma genetic_resamples_forever :
  never_returns (fun fuel => genetic fuel square_graph)
    (mk_rng (fun _ => 0) 0).
Proof.
  intros fuel. unfold genetic, genetic_with.
  destruct (greedy_run square_graph (mk_rng (fun _ => 0) 0))
    as (t & Hgreedy & Hlen & _); [done|].
  change (length (node_set square_graph)) with 4 in Hlen.
  unfold bind at 1.
  rewrite (generate_population_unfold _ _ _ _ _ Hgreedy).
  change (seq 0 (Z.to_nat (POPULATION_SIZE - 1))) with (0 :: seq 1 198).
  cbn [for_each]. unfold bind at 1 2.
  rewrite with_local_sim_unfold, Hlen.
  change (2 <? Z.of_nat 4)%Z with true. cbn match.
  pose proof (_get_valid_swath_zeros (Z.of_nat 4) 0 ltac:(lia) fuel)
    as Hswath.
  cbn beta in Hswath.
  destruct (_get_valid_swath _ _ _) as [[?| |] ?]; cbn [fst] in Hswath;
    [discriminate..|reflexivity].
Qed.

(** * Further properties of the code *)

(** ** Swath selection *)

(** [_random_slice] asserts a positive length; on one it never fails, reads
    two cells and returns a swath of the sequence that holds at least one
    cell.  Every such swath is the draw of some tape. *)
Theorem _random_slice_contains_a_member (seq_length : Z) (g : rng) :
  ((seq_length <= 0)%Z ->
   _random_slice seq_length g = (Raise AssertionError, g))
  /\ ((0 < seq_length)%Z ->
      (exists swath,
         _random_slice seq_length g = (Ret swath, advance 2 g)
         /\ start swath < stop swath
         /\ (Z.of_nat (stop swath) <= seq_length)%Z)
      /\ (forall a b, a < b -> (Z.of_nat b <= seq_length)%Z ->
            exists t, fst (_random_slice seq_length (mk_rng t 0))
                      = Ret (mk_slice a b))).
Proof.
  split.
  - intros Hlen. unfold _random_slice, bind, py_assert.
    by rewrite (proj2 (Z.ltb_ge _ _) Hlen).
  - intros Hpos. split.
    + destruct (_random_slice_returns seq_length g Hpos) as [swath Hrun].
      exists swath. split; [done|].
      by apply _random_slice_ret in Hrun as (? & ? & _).
    + intros a b Hab Hb. exists (tape_of [a; b - a - 1] 0).
      rewrite _random_slice_run by done. cbn [fst tape pos].
      unfold draw_at, decode2, tape_of. cbn [nth fst snd].
      rewrite (Nat.mod_small a), (Nat.mod_small (b - a - 1)) by lia.
      replace (a + 1 + (b - a - 1)) with b by lia.
      rewrite (Nat.mod_small b) by lia.
      f_equal. f_equal; lia.
Qed.

Lemma _random_slice_contains_a_member_witness :
  (exists swath,
     _random_slice 3 (mk_rng (fun _ => 1) 0)
     = (Ret swath, advance 2 (mk_rng (fun _ => 1) 0))
     /\ start swath < stop swath /\ (Z.of_nat (stop swath) <= 3)%Z)
  /\ (forall a b, a < b -> (Z.of_nat b <= 3)%Z ->
        exists t, fst (_random_slice 3 (mk_rng t 0)) = Ret (mk_slice a b)).
Proof.
  apply (proj2 (_random_slice_contains_a_member 3 (mk_rng (fun _ => 1) 0))).
  lia.
Defined.

(** A swath [_get_valid_swath] returns lies inside the sequence, holds at
    least one cell and leaves at least one cell out: its width is between 1
    and [seq_length - 1].  The length was greater than 2, and the generator
    kept its tape. *)
Theorem _get_valid_swath_is_proper (fuel : nat) (seq_length : Z)
    (g g' : rng) (swath : slice) :
  _get_valid_swath fuel seq_length g = (Ret swath, g') ->
  (2 < seq_length)%Z
  /\ start swath < stop swath
  /\ (Z.of_nat (stop swath) <= seq_length)%Z
  /\ (1 <= Z.of_nat (stop swath) - Z.of_nat (start swath) <= seq_length - 1)%Z.
Proof.
  intros Hrun.
  apply _get_valid_swath_ret in Hrun as (Hlen & [Hlt Hstop] & Hall).
  split; [done|]. split; [done|]. split; [done|].
  unfold covers_all in Hall. apply andb_false_iff in Hall as [Hs|Hs].
  - apply Nat.eqb_neq in Hs. lia.
  - apply Z.eqb_neq in Hs. lia.
Qed.

Lemma _get_valid_swath_is_proper_witness :
  (2 < 5)%Z /\ 1 < 3 /\ (Z.of_nat 3 <= 5)%Z
  /\ (1 <= Z.of_nat 3 - Z.of_nat 1 <= 5 - 1)%Z.
Proof.
  apply (_get_valid_swath_is_proper 0 5 (mk_rng (fun _ => 1) 0)
           (advance 2 (mk_rng (fun _ => 1) 0)) (mk_slice 1 3)).
  reflexivity.
Defined.

(** ** Mutation *)

Lemma reverse_swath_twice {A} (seq : list A) swath :
  start swath <= stop swath <= length seq ->
  slice_set (slice_set seq swath (reverse (slice_get seq swath))) swath
    (reverse
       (slice_get (slice_set seq swath (reverse (slice_get seq swath))) swath))
  = seq.
Proof.
  intros [Hle Hstop].
  pose proof (length_slice_get seq swath Hstop) as Hlen.
  set (sw := slice_get seq swath) in *.
  assert (Hget : slice_get (slice_set seq swath (reverse sw)) swath
                 = reverse sw).
  { unfold slice_set, slice_get at 1.
    rewrite drop_app_length' by (rewrite length_take; lia).
    apply take_app_length'. rewrite length_reverse. lia. }
  rewrite Hget, reverse_involutive. unfold slice_set.
  rewrite take_app_length' by (rewrite length_take; lia).
  rewrite Nat.max_r by lia.
  assert (Hdrop : drop (stop swath)
            (take (start swath) seq ++ reverse sw ++ drop (stop swath) seq)
          = drop (stop swath) seq).
  { rewrite (assoc_L (++)). apply drop_app_length'.
    rewrite length_app, length_take, length_reverse. lia. }
  rewrite Hdrop. symmetry. by apply swath_split.
Qed.

(** [sim] is its own inverse on a swath: a second call that draws the
    swath of the first gives the list back. *)
Theorem sim_twice_restores {A} (fuel : nat) (seq : list A)
    (g g' g2 g2' : rng) (swath : slice) :
  _get_valid_swath fuel (Z.of_nat (length seq)) g = (Ret swath, g') ->
  _get_valid_swath fuel (Z.of_nat (length seq)) g2 = (Ret swath, g2') ->
  exists seq',
    sim fuel (seq, g) = (Ret tt, (seq', g'))
    /\ sim fuel (seq', g2) = (Ret tt, (seq, g2')).
Proof.
  intros Hrun Hrun2.
  pose proof (_get_valid_swath_ret _ _ _ _ _ Hrun) as (Hlen & [Hlt Hstop] & _).
  exists (slice_set seq swath (reverse (slice_get seq swath))).
  rewrite !sim_unfold, reverse_swath_length by lia.
  rewrite (proj2 (Z.ltb_lt 2 (Z.of_nat (length seq)))) by lia.
  rewrite Hrun, Hrun2. split; [done|].
  by rewrite reverse_swath_twice by lia.
Qed.

Lemma sim_twice_restores_witness :
  exists seq',
    sim 0 ([10; 20; 30; 40; 50]%Z, mk_rng (fun _ => 1) 0)
    = (Ret tt, (seq', advance 2 (mk_rng (fun _ => 1) 0)))
    /\ sim 0 (seq', advance 2 (mk_rng (fun _ => 1) 0))
       = (Ret tt, ([10; 20; 30; 40; 50]%Z,
                   advance 2 (advance 2 (mk_rng (fun _ => 1) 0)))).
Proof.
  apply (sim_twice_restores 0 [10; 20; 30; 40; 50]%Z _ _ _ _ (mk_slice 1 3));
    reflexivity.
Defined.

(** On a list without duplicates [sim] changes the list exactly when the
    swath it drew holds more than one cell: a swath of one cell, which
    [_get_valid_swath] can return, makes the mutation a no-op. *)
Theorem sim_changes_unless_single {A} (fuel : nat) (seq : list A)
    (g g' : rng) (swath : slice) :
  NoDup seq ->
  _get_valid_swath fuel (Z.of_nat (length seq)) g = (Ret swath, g') ->
  exists seq',
    sim fuel (seq, g) = (Ret tt, (seq', g'))
    /\ (seq' = seq <-> stop swath = S (start swath)).
Proof.
  intros Hnd Hrun.
  pose proof (_get_valid_swath_ret _ _ _ _ _ Hrun) as (Hlen & [Hlt Hstop] & _).
  exists (slice_set seq swath (reverse (slice_get seq swath))).
  rewrite sim_unfold.
  rewrite (proj2 (Z.ltb_lt 2 (Z.of_nat (length seq)))) by lia.
  rewrite Hrun. split; [done|]. split.
  - intros Heq.
    pose proof (reverse_swath_inside seq swath (start swath)
                  ltac:(lia) ltac:(lia)) as Hfirst.
    rewrite Heq in Hfirst.
    destruct (lookup_lt_is_Some_2 seq (start swath) ltac:(lia)) as [x Hx].
    rewrite Hx in Hfirst. symmetry in Hfirst.
    pose proof (NoDup_lookup _ _ _ _ Hnd Hx Hfirst). lia.
  - intros Hone. rewrite (swath_split seq swath ltac:(lia)) at 3.
    unfold slice_set. rewrite Nat.max_r by lia. do 2 f_equal.
    pose proof (length_slice_get seq swath ltac:(lia)) as Hw.
    destruct (slice_get seq swath) as [|x [|y l]]; cbn in Hw; try lia.
    done.
Qed.

Lemma sim_changes_unless_single_witness :
  exists seq',
    sim 1 ([10; 20; 30]%Z, mk_rng (tape_of [0; 2; 0; 0] 0) 0)
    = (Ret tt, (seq', advance 4 (mk_rng (tape_of [0; 2; 0; 0] 0) 0)))
    /\ (seq' = [10; 20; 30]%Z <-> 1 = 1).
Proof.
  apply (sim_changes_unless_single 1 [10; 20; 30]%Z
           (mk_rng (tape_of [0; 2; 0; 0] 0) 0) _ (mk_slice 0 1)).
  - compute_done.
  - reflexivity.
Defined.

(** ** Crossover *)

Lemma rotate_within {A} (l : list A) b :
  b <= length l -> rotate b l = drop b l ++ take b l.
Proof.
  intros Hb. unfold rotate.
  destruct (decide (b = length l)) as [->|Hne].
  - rewrite Nat.Div0.mod_same, drop_all, (take_ge l (length l)) by done.
    cbn. by rewrite app_nil_r.
  - by rewrite Nat.mod_small by lia.
Qed.

Lemma ox1_with_written {A} `{EqDecision A} {St} swath
    (main_seq secondary_seq : list A) (s : St) :
  length main_seq = length secondary_seq -> 0 < length main_seq ->
  start swath <= stop swath <= length main_seq ->
  ox1_with swath main_seq secondary_seq s
  = (Ret (write_from (stop swath) (length secondary_seq)
            (accepted (slice_get main_seq swath) (stop swath) secondary_seq) 0
            (slice_set (replicate (length main_seq) None) swath
               (Some <$> slice_get main_seq swath))), s).
Proof.
  intros Hlen Hpos Hsw. unfold ox1_with, _fill_missing_genes.
  rewrite prefilled_values by done.
  rewrite <-(length_rotate secondary_seq (stop swath)) at 1.
  erewrite bind_ret; last first.
  { apply fill_loop_run; [lia| |].
    - rewrite prefilled_child, !length_app, !length_replicate, length_fmap,
        length_slice_get by lia. lia.
    - intros i Hi. rewrite length_rotate in Hi. by rewrite rotate_lookup_mod. }
  done.
Qed.

Lemma ox1_with_returns {A} `{EqDecision A} {St} swath
    (main_seq secondary_seq : list A) (s : St) :
  length main_seq = length secondary_seq -> 0 < length main_seq ->
  start swath <= stop swath <= length main_seq ->
  exists child, ox1_with swath main_seq secondary_seq s = (Ret child, s)
    /\ length child = length main_seq.
Proof.
  intros Hlen Hpos Hsw. eexists. split; [by apply ox1_with_written|].
  rewrite length_write_from, prefilled_child, !length_app, !length_replicate,
    length_fmap, length_slice_get by lia. lia.
Qed.

(** [ox1] raises nothing but [AssertionError], and raises it exactly when
    the parents differ in length or are no longer than 2; on any other
    parents, tours or not, every index the fill reads or writes is in
    range. *)
Theorem ox1_raises_only_assertions {A} `{EqDecision A} (fuel : nat)
    (main_seq secondary_seq : list A) (g : rng) :
  match fst (ox1 fuel main_seq secondary_seq g) with
  | Raise e =>
      e = AssertionError
      /\ (length main_seq ≠ length secondary_seq \/ length main_seq <= 2)
  | Ret child =>
      length main_seq = length secondary_seq /\ 2 < length main_seq
      /\ length child = length main_seq
  | OutOfFuel =>
      length main_seq = length secondary_seq /\ 2 < length main_seq
  end.
Proof.
  destruct (decide (length main_seq = length secondary_seq)) as [Hlen|Hlen];
    last first.
  { unfold ox1, bind, py_assert.
    rewrite (proj2 (Nat.eqb_neq _ _) Hlen). cbn. auto. }
  rewrite ox1_unfold by done.
  destruct (decide (length main_seq <= 2)) as [Hshort|Hlong].
  { rewrite _get_valid_swath_short by lia. cbn. auto. }
  destruct (_get_valid_swath _ _ _) as [[swath|e|] g'] eqn:Hswath.
  - apply _get_valid_swath_ret in Hswath as (_ & [Hlt Hstop] & _).
    destruct (ox1_with_returns swath main_seq secondary_seq g' Hlen)
      as (child & -> & Hchild); [lia|lia|].
    cbn. split; [done|]. split; [lia|done].
  - by eapply _get_valid_swath_no_raise in Hswath; [|lia].
  - cbn. split; [done|lia].
Qed.

(** Crossing a tour with itself gives the tour back, whatever the swath. *)
Theorem ox1_of_one_parent {A} `{EqDecision A} (fuel : nat) (parent : list A)
    (g g' : rng) (swath : slice) :
  NoDup parent ->
  _get_valid_swath fuel (Z.of_nat (length parent)) g = (Ret swath, g') ->
  ox1 fuel parent parent g = (Ret (Some <$> parent), g').
Proof.
  intros Hnd Hswath.
  rewrite (ox1_run fuel swath parent parent g g' Hnd (reflexivity _) Hswath).
  apply _get_valid_swath_ret in Hswath as (_ & [Hlt Hstop] & _).
  do 3 f_equal. unfold ox1_child, accepted.
  rewrite rotate_within by lia.
  pose proof (swath_split parent swath ltac:(lia)) as Hsplit.
  rewrite Hsplit in Hnd.
  apply NoDup_app in Hnd as (_ & Hbefore & Hnd).
  apply NoDup_app in Hnd as (_ & Hafter & _).
  assert (Htake : take (stop swath) parent
                  = take (start swath) parent ++ slice_get parent swath).
  { unfold slice_get. rewrite take_take_drop. f_equal. lia. }
  rewrite Htake, !filter_app.
  rewrite (filter_none _ (slice_get parent swath)) by (by intros x Hx Hn).
  rewrite filter_all by (intros x Hx Hsw; by apply (Hafter x Hsw)).
  rewrite filter_all; last first.
  { intros x Hx Hsw. apply (Hbefore x Hx). apply elem_of_app. by left. }
  rewrite app_nil_r.
  rewrite drop_app_length', take_app_length' by (rewrite length_drop; lia).
  by rewrite <-Hsplit.
Qed.

Lemma ox1_of_one_parent_witness :
  ox1 0 [10; 20; 30; 40; 50]%Z [10; 20; 30; 40; 50]%Z (mk_rng (fun _ => 1) 0)
  = (Ret (Some <$> [10; 20; 30; 40; 50]%Z), advance 2 (mk_rng (fun _ => 1) 0)).
Proof.
  apply (ox1_of_one_parent 0 [10; 20; 30; 40; 50]%Z _ _ (mk_slice 1 3)).
  - compute_done.
  - reflexivity.
Defined.

(** The child keeps the secondary parent's genes in their cyclic order:
    read from [stop] around, the child is the genes of the secondary parent
    that are not in the swath, in the order the secondary parent has them
    from [stop] around, followed by the swath. *)
Theorem ox1_keeps_secondary_order {A} `{EqDecision A} (fuel : nat)
    (main_seq secondary_seq : list A) (g g' : rng) (swath : slice) :
  NoDup main_seq -> secondary_seq ≡ₚ main_seq ->
  _get_valid_swath fuel (Z.of_nat (length main_seq)) g = (Ret swath, g') ->
  exists t rest,
    ox1 fuel main_seq secondary_seq g = (Ret (Some <$> t), g')
    /\ rotate (stop swath) t = rest ++ slice_get main_seq swath
    /\ rest `sublist_of` rotate (stop swath) secondary_seq
    /\ (forall x, x ∈ rest <-> x ∈ secondary_seq /\ x ∉ slice_get main_seq swath).
Proof.
  intros Hnd Hperm Hswath.
  exists (ox1_child swath main_seq secondary_seq),
         (accepted (slice_get main_seq swath) (stop swath) secondary_seq).
  split; [by apply ox1_run|].
  apply _get_valid_swath_ret in Hswath as (_ & [Hlt Hstop] & _).
  pose proof (length_accepted main_seq secondary_seq swath Hnd Hperm
                ltac:(lia)) as Hrest.
  pose proof (length_slice_get main_seq swath ltac:(lia)) as Hsw.
  split; [|split].
  - rewrite rotate_within
      by (rewrite ox1_child_Permutation by (done || lia); lia).
    unfold ox1_child. cbn zeta.
    set (rest := accepted _ _ _) in *. set (sw := slice_get _ _) in *.
    rewrite (assoc_L (++) (drop _ rest) sw).
    rewrite drop_app_length', take_app_length'
      by (rewrite length_app, length_drop; lia).
    rewrite (assoc_L (++)), (take_drop _ rest). done.
  - apply sublist_filter.
  - intros x. unfold accepted.
    rewrite list_elem_of_filter, elem_of_rotate. tauto.
Qed.

Lemma ox1_keeps_secondary_order_witness :
  exists t rest,
    ox1 0 [1; 2; 3; 4; 5]%Z [5; 4; 3; 2; 1]%Z (mk_rng (fun _ => 1) 0)
    = (Ret (Some <$> t), advance 2 (mk_rng (fun _ => 1) 0))
    /\ rotate 3 t = rest ++ slice_get [1; 2; 3; 4; 5]%Z (mk_slice 1 3)
    /\ rest `sublist_of` rotate 3 [5; 4; 3; 2; 1]%Z
    /\ (forall x, x ∈ rest <->
          x ∈ [5; 4; 3; 2; 1]%Z
          /\ x ∉ slice_get [1; 2; 3; 4; 5]%Z (mk_slice 1 3)).
Proof.
  apply (ox1_keeps_secondary_order 0 [1; 2; 3; 4; 5]%Z [5; 4; 3; 2; 1]%Z
           (mk_rng (fun _ => 1) 0) _ (mk_slice 1 3)).
  - compute_done.
  - apply (reverse_Permutation [1; 2; 3; 4; 5]%Z).
  - reflexivity.
Defined.

(** ** The greedy constructor *)

Lemma min_by_least key best candidates x :
  x ∈ best :: candidates ->
  (key (min_by key best candidates) <= key x)%Z.
Proof.
  revert best x. induction candidates as [|c candidates IH]; intros best x Hx.
  - apply list_elem_of_singleton in Hx as ->. cbn. lia.
  - cbn [min_by].
    pose proof (IH (if (key c <? key best)%Z then c else best)) as Hrec.
    assert (Hcur : (key (min_by key (if (key c <? key best)%Z then c else best)
                           candidates)
                    <= key (if (key c <? key best)%Z then c else best))%Z)
      by (apply Hrec; left).
    apply elem_of_cons in Hx as [->|[->|Hx]%elem_of_cons].
    + destruct (key c <? key best)%Z eqn:Hlt; [apply Z.ltb_lt in Hlt|]; lia.
    + destruct (key c <? key best)%Z eqn:Hlt; [|apply Z.ltb_ge in Hlt]; lia.
    + apply Hrec. by right.
Qed.

Lemma greedy_loop_chain fuel graph prev_node available_nodes t :
  NoDup available_nodes -> length available_nodes = fuel ->
  exists r,
    greedy_loop fuel graph prev_node available_nodes t = t ++ r
    /\ r ≡ₚ available_nodes /\ nearest_chain graph prev_node r.
Proof.
  revert prev_node available_nodes t.
  induction fuel as [|fuel IH]; intros prev_node available_nodes t Hnd Hlen.
  - destruct available_nodes; [|done]. exists []. by rewrite app_nil_r.
  - destruct available_nodes as [|c cs]; [done|]. cbn [greedy_loop].
    set (next_node := min_by _ c cs).
    assert (Hnext : next_node ∈ c :: cs) by apply min_by_elem.
    pose proof (set_remove_Permutation _ _ Hnd Hnext) as Hrem.
    destruct (IH next_node (set_remove next_node (c :: cs)) (t ++ [next_node]))
      as (r & Hrun & Hperm & Hchain).
    { apply NoDup_filter, Hnd. }
    { apply Permutation_length in Hrem. cbn [length] in Hrem, Hlen. lia. }
    exists (next_node :: r). split; [|split].
    + by rewrite Hrun, <-(assoc_L (++)).
    + by rewrite Hperm, <-Hrem.
    + split; [|done]. intros y Hy. rewrite Hperm in Hy.
      apply (min_by_least (fun x => distance graph prev_node x) c cs y).
      unfold set_remove in Hy. by apply list_elem_of_filter in Hy as [_ ?].
Qed.

(** [greedy] fails with [KeyError] on a graph without nodes.  Otherwise it
    starts at the first node of the set and always goes on to a node that
    is nearest to the one before among those not yet visited, until each
    node is visited once. *)
Theorem greedy_goes_to_the_nearest {St} (graph : Graph) (s : St) :
  match node_set graph with
  | [] => greedy graph s = (Raise KeyError, s)
  | first :: others =>
      exists t, greedy graph s = (Ret (first :: t), s)
        /\ t ≡ₚ others /\ nearest_chain graph first t
  end.
Proof.
  unfold greedy, node_set.
  pose proof (NoDup_remove_dups (nodes graph)) as Hnd.
  destruct (remove_dups (nodes graph)) as [|first others]; [done|].
  apply NoDup_cons in Hnd as [_ Hnd].
  destruct (greedy_loop_chain (length others) graph first others [first] Hnd
              eq_refl) as (r & Hrun & Hperm & Hchain).
  exists r. by rewrite Hrun.
Qed.

(** ** The population *)

(** [is_population_saturated] holds exactly when all members have the same
    fitness; it holds of the empty population. *)
Theorem is_population_saturated_iff (population : list member) :
  is_population_saturated population = true
  <-> forall m1 m2, m1 ∈ population -> m2 ∈ population -> fst m1 = fst m2.
Proof.
  unfold is_population_saturated. rewrite Nat.leb_le.
  pose proof (NoDup_remove_dups (fst <$> population)) as Hnd.
  split.
  - intros Hlen m1 m2 Hm1 Hm2.
    apply (list_elem_of_fmap_2 fst), elem_of_remove_dups in Hm1, Hm2.
    destruct (remove_dups (fst <$> population)) as [|f [|f' l]];
      [by apply elem_of_nil in Hm1| |cbn in Hlen; lia].
    apply list_elem_of_singleton in Hm1, Hm2. congruence.
  - intros Hsame.
    destruct (remove_dups (fst <$> population)) as [|f [|f' l]] eqn:Hdups;
      [cbn; lia..|].
    exfalso. apply NoDup_cons in Hnd as [Hf _]. apply Hf.
    assert (Hin : f ∈ fst <$> population /\ f' ∈ fst <$> population).
    { split; apply elem_of_remove_dups; rewrite Hdups; [left|right; left]. }
    destruct Hin as [(m1 & -> & Hm1)%list_elem_of_fmap_1
                       (m2 & -> & Hm2)%list_elem_of_fmap_1].
    rewrite (Hsame m1 m2 Hm1 Hm2). left.
Qed.

(** On every list, heap or not, [update_population] looks at the member at
    index 0 only: a candidate that is not strictly fitter leaves the list as
    it is, a fitter one takes the place of that member, and the size never
    changes.  On the empty list it fails with [IndexError]. *)
Theorem update_population_evicts_the_root (item : member)
    (population : list member) :
  match population with
  | [] => update_population item population = (Raise IndexError, population)
  | root :: rest =>
      exists population',
        update_population item population = (Ret tt, population')
        /\ length population' = length population
        /\ (((fst item <= fst root)%Z /\ population' = population)
            \/ ((fst root < fst item)%Z /\ population' ≡ₚ item :: rest))
  end.
Proof.
  destruct population as [|root rest]; [done|].
  destruct (Z.lt_ge_cases (fst root) (fst item)) as [Hlt|Hge].
  - destruct (update_population_better item root rest Hlt)
      as (population' & Hrun & Hperm).
    exists population'. split; [done|]. split; [by rewrite Hperm|].
    right. done.
  - exists (root :: rest). split; [by apply update_population_not_better|].
    split; [done|]. left. done.
Qed.

(** ** Selection *)

Lemma _tournament_selection_winner (population : list member) g :
  2 <= length population ->
  exists t, _tournament_selection population g = (Ret t, advance 2 g)
    /\ tournament_winner population t.
Proof.
  intros Hlen. unfold _tournament_selection, sample2.
  destruct (decode2_distinct (length population) (tape g (pos g))
              (tape g (S (pos g))) Hlen) as (Ha & Hb & Hab).
  destruct (lookup_lt_is_Some_2 population _ Ha) as [first Hfirst].
  destruct (lookup_lt_is_Some_2 population _ Hb) as [second Hsecond].
  unfold bind at 1.
  rewrite (proj2 (Nat.ltb_ge _ _) Hlen).
  unfold bind, py_get. rewrite Hfirst, Hsecond. unfold ret at 1 2.
  eexists. split; [done|].
  destruct (fst first <? fst second)%Z eqn:Hlt;
    [apply Z.ltb_lt in Hlt|apply Z.ltb_ge in Hlt].
  - eexists _, _, second, first. repeat split; [|done..|lia].
    by apply not_eq_sym.
  - eexists _, _, first, second. repeat split; done.
Qed.

(** A tournament needs two members: on a smaller population it fails with
    [ValueError] before reading the tape.  Otherwise it reads two cells and
    returns the tour of one of two members at different positions, one that
    is at least as fit as the other: a member strictly less fit than every
    other one never wins. *)
Theorem _tournament_selection_picks_the_fitter (population : list member)
    (g : rng) :
  (length population < 2 ->
   _tournament_selection population g = (Raise ValueError, g))
  /\ (2 <= length population ->
      exists t, _tournament_selection population g = (Ret t, advance 2 g)
        /\ tournament_winner population t).
Proof.
  split.
  - intros Hlen. unfold _tournament_selection, bind, sample2.
    by rewrite (proj2 (Nat.ltb_lt _ _) Hlen).
  - apply _tournament_selection_winner.
Qed.

Lemma _tournament_selection_picks_the_fitter_witness :
  exists t,
    _tournament_selection [(1, [0; 1; 2]); (3, [0; 2; 1])]%Z
      (mk_rng (fun _ => 0) 0)
    = (Ret t, advance 2 (mk_rng (fun _ => 0) 0))
    /\ tournament_winner [(1, [0; 1; 2]); (3, [0; 2; 1])]%Z t.
Proof.
  apply (proj2 (_tournament_selection_picks_the_fitter
                  [(1, [0; 1; 2]); (3, [0; 2; 1])]%Z (mk_rng (fun _ => 0) 0))).
  cbn. lia.
Defined.

(** [select_two_parents] runs two tournaments one after the other: it
    fails with [ValueError], nothing read, on fewer than two members, and
    otherwise reads four cells and returns two winners, which may be the
    same tour. *)
Theorem select_two_parents_are_winners (population : list member)
    (g : rng) :
  (length population < 2 ->
   select_two_parents population g = (Raise ValueError, g))
  /\ (2 <= length population ->
      exists parent1 parent2,
        select_two_parents population g
        = (Ret (parent1, parent2), advance 4 g)
        /\ tournament_winner population parent1
        /\ tournament_winner population parent2).
Proof.
  split.
  - intros Hlen. unfold select_two_parents, bind at 1.
    unfold _tournament_selection, bind, sample2.
    by rewrite (proj2 (Nat.ltb_lt _ _) Hlen).
  - intros Hlen.
    destruct (_tournament_selection_winner population g Hlen)
      as (p1 & Hrun1 & Hp1).
    destruct (_tournament_selection_winner population (advance 2 g) Hlen)
      as (p2 & Hrun2 & Hp2).
    exists p1, p2. split; [|done]. unfold select_two_parents.
    rewrite (bind_ret _ _ _ _ _ Hrun1), (bind_ret _ _ _ _ _ Hrun2).
    by rewrite advance_advance.
Qed.

Lemma select_two_parents_are_winners_witness :
  exists parent1 parent2,
    select_two_parents [(1, [0; 1; 2]); (3, [0; 2; 1])]%Z
      (mk_rng (fun _ => 0) 0)
    = (Ret (parent1, parent2), advance 4 (mk_rng (fun _ => 0) 0))
    /\ tournament_winner [(1, [0; 1; 2]); (3, [0; 2; 1])]%Z parent1
    /\ tournament_winner [(1, [0; 1; 2]); (3, [0; 2; 1])]%Z parent2.
Proof.
  apply (proj2 (select_two_parents_are_winners
                  [(1, [0; 1; 2]); (3, [0; 2; 1])]%Z (mk_rng (fun _ => 0) 0))).
  cbn. lia.
Defined.

(** ** What a returning run went through *)

Lemma on_rng_ret_inv {St A} (m : M rng A) (p : St) g a s' :
  on_rng m (p, g) = (Ret a, s') ->
  exists g', m g = (Ret a, g') /\ s' = (p, g').
Proof.
  unfold on_rng. cbn [fst snd]. destruct (m g) as [r g'].
  intros [= -> <-]. by exists g'.
Qed.

Lemma on_population_ret_inv {St T A} (m : M St A) (p : St) (t : T) a s' :
  on_population m (p, t) = (Ret a, s') ->
  exists p', m p = (Ret a, p') /\ s' = (p', t).
Proof.
  unfold on_population. cbn [fst snd]. destruct (m p) as [r p'].
  intros [= -> <-]. by exists p'.
Qed.

Lemma with_local_sim_ret {A} fuel (seq seq' : list A) g g' :
  with_local seq (sim fuel) g = (Ret seq', g') ->
  exists swath, start swath <= stop swath
    /\ seq' = slice_set seq swath (reverse (slice_get seq swath)).
Proof.
  rewrite with_local_sim_unfold. destruct (2 <? _)%Z; [|done].
  destruct (_get_valid_swath _ _ _) as [[swath|e|] g1] eqn:Hswath; [|done..].
  intros [= <- <-].
  apply _get_valid_swath_ret in Hswath as (_ & [Hlt _] & _).
  exists swath. split; [lia|done].
Qed.

Lemma ox1_ret_child {A} `{EqDecision A} fuel (main_seq secondary_seq : list A)
    g child g' :
  NoDup main_seq -> secondary_seq ≡ₚ main_seq ->
  ox1 fuel main_seq secondary_seq g = (Ret child, g') ->
  exists t, child = Some <$> t /\ t ≡ₚ main_seq.
Proof.
  intros Hnd Hperm Hrun.
  rewrite ox1_unfold in Hrun by (by rewrite Hperm).
  destruct (_get_valid_swath _ _ _) as [[swath|e|] g1] eqn:Hswath; [|done..].
  pose proof (ox1_run fuel swath _ _ _ _ Hnd Hperm Hswath) as Hchild.
  rewrite ox1_unfold, Hswath in Hchild by (by rewrite Hperm).
  rewrite Hchild in Hrun. injection Hrun as <- <-.
  apply _get_valid_swath_ret in Hswath as (_ & [Hlt _] & _).
  eexists. split; [done|]. apply ox1_child_Permutation; [done..|lia].
Qed.

Lemma filled_tour_Some child t :
  filled_tour child = Some t -> child = Some <$> t.
Proof.
  revert t. induction child as [|[x|] child IH]; intros t; cbn.
  - by intros [= <-].
  - destruct (filled_tour child) as [t'|]; [|done].
    intros [= <-]. cbn. f_equal. by apply IH.
  - done.
Qed.

Lemma scored_ret_inv {St} child graph (s s' : St) item :
  scored child graph s = (Ret item, s') ->
  exists t, child = Some <$> t /\ item = (_get_fitness t graph, t) /\ s' = s.
Proof.
  unfold scored. destruct (filled_tour child) as [t|] eqn:Hfilled; [|done].
  intros [= <- <-]. exists t. split; [by apply filled_tour_Some|done].
Qed.

Lemma update_population_ret_inv item population u population' :
  update_population item population = (Ret u, population') ->
  length population' = length population
  /\ (population' = population
      \/ exists root rest,
           population = root :: rest /\ (fst root < fst item)%Z
           /\ population' ≡ₚ item :: rest).
Proof.
  destruct population as [|root rest]; [done|].
  destruct (Z.lt_ge_cases (fst root) (fst item)) as [Hlt|Hge].
  - destruct (update_population_better item root rest Hlt)
      as (population1 & -> & Hperm).
    intros [= <- <-]. split; [by rewrite Hperm|]. right. by exists root, rest.
  - rewrite update_population_not_better by done.
    intros [= <- <-]. split; [done|by left].
Qed.

(** The children a returning run of the statements for one child went
    through: the state keeps its tape out of the picture, the population
    is the old one or has the scored child in the place of its root. *)
Lemma offspring_ret_inv fuel graph main_seq secondary_seq population g u s' :
  offspring fuel graph main_seq secondary_seq (population, g) = (Ret u, s') ->
  exists child child' t population',
    (exists g0 g1, ox1 fuel main_seq secondary_seq g0 = (Ret child, g1))
    /\ (child' = child
        \/ exists swath, start swath <= stop swath
             /\ child' = slice_set child swath
                           (reverse (slice_get child swath)))
    /\ child' = Some <$> t
    /\ fst s' = population'
    /\ length population' = length population
    /\ (population' = population
        \/ exists root rest,
             population = root :: rest
             /\ (fst root < _get_fitness t graph)%Z
             /\ population' ≡ₚ (_get_fitness t graph, t) :: rest).
Proof.
  unfold offspring. intros Hrun. run_inv Hrun.
  apply on_rng_ret_inv in Hrun0 as (g1 & Hox1 & ->).
  apply on_rng_ret_inv in Hrun1 as (g2 & _ & ->).
  assert (Hmut : (a1 = a \/ exists swath, start swath <= stop swath
                    /\ a1 = slice_set a swath (reverse (slice_get a swath)))
                 /\ exists g3, s1 = (population, g3)).
  { destruct a0.
    - apply on_rng_ret_inv in Hrun2 as (g3 & Hsim & ->).
      apply with_local_sim_ret in Hsim. split; [by right|by exists g3].
    - injection Hrun2 as <- <-. split; [by left|by exists g2]. }
  destruct Hmut as [Hmut [g3 ->]].
  apply scored_ret_inv in Hrun3 as (t & -> & -> & ->).
  apply on_population_ret_inv in Hrun as (population' & Hupdate & ->).
  apply update_population_ret_inv in Hupdate as [Hlen Hupdate].
  exists a, (Some <$> t), t, population'.
  split; [by exists g, g1|]. split; [done|]. split; [done|].
  split; [done|]. split; [done|]. done.
Qed.

Lemma select_two_parents_ret_inv (population : list member) g parents g' :
  select_two_parents population g = (Ret parents, g') ->
  2 <= length population
  /\ fst parents ∈ snd <$> population /\ snd parents ∈ snd <$> population.
Proof.
  intros Hrun. destruct (decide (2 <= length population)) as [Hlen|Hlen].
  - destruct (select_two_parents_run population g Hlen)
      as (p1 & p2 & Hsel & Hp1 & Hp2).
    rewrite Hsel in Hrun. injection Hrun as <- <-. done.
  - exfalso. revert Hrun. unfold select_two_parents, bind at 1.
    unfold _tournament_selection, bind, sample2.
    by rewrite (proj2 (Nat.ltb_lt _ _)) by lia.
Qed.

(** A generation that returns was run on at least two members and leaves
    as many members as it found. *)
Theorem generation_keeps_the_size (fuel : nat) (graph : Graph)
    (population population' : list member) (g g' : rng) :
  generation fuel graph (population, g) = (Ret tt, (population', g')) ->
  2 <= length population /\ length population' = length population.
Proof.
  rewrite generation_offspring. intros Hrun. run_inv Hrun.
  injection Hrun0 as <- <-.
  apply on_rng_ret_inv in Hrun1 as (g1 & Hselect & ->).
  apply select_two_parents_ret_inv in Hselect as (Hlen & _ & _).
  destruct s1 as [population1 g2].
  apply offspring_ret_inv in Hrun2
    as (? & ? & ? & ? & _ & _ & _ & Hfst1 & Hlen1 & _).
  apply offspring_ret_inv in Hrun
    as (? & ? & ? & ? & _ & _ & _ & Hfst2 & Hlen2 & _).
  cbn [fst] in Hfst1, Hfst2. subst. split; [done|lia].
Qed.

Lemma generation_keeps_the_size_witness :
  2 <= length [(-12, [0; 1; 2; 3]); (-10, [1; 0; 2; 3])]%Z
  /\ length
       (fst (snd (generation 0 square_graph
                    ([(-12, [0; 1; 2; 3]); (-10, [1; 0; 2; 3])]%Z,
                     mk_rng (fun _ => 1) 0))))
     = length [(-12, [0; 1; 2; 3]); (-10, [1; 0; 2; 3])]%Z.
Proof.
  apply (generation_keeps_the_size 0 square_graph _ _ (mk_rng (fun _ => 1) 0)
           (snd (snd (generation 0 square_graph
                        ([(-12, [0; 1; 2; 3]); (-10, [1; 0; 2; 3])]%Z,
                         mk_rng (fun _ => 1) 0))))).
  vm_compute. reflexivity.
Defined.

(** ** The initial population *)

Lemma generate_population_ret_inv (fuel : nat) (graph : Graph) (size : Z)
    (g g' : rng) (population : list member) :
  generate_population fuel graph size g = (Ret population, g') ->
  exists t0 rest,
    greedy graph g = (Ret t0, g)
    /\ population = (_get_fitness t0 graph, t0) :: rest
    /\ Forall (fun m => exists swath,
                 start swath <= stop swath
                 /\ snd m = slice_set t0 swath (reverse (slice_get t0 swath)))
         rest
    /\ scored_members graph population
    /\ Z.of_nat (length population) = Z.max size 1.
Proof.
  intros Hrun.
  destruct (node_set graph) as [|first others] eqn:Hnodes.
  { exfalso. revert Hrun. unfold generate_population, bind at 1, greedy.
    unfold node_set in Hnodes. by rewrite Hnodes. }
  destruct (greedy_run graph g) as (t0 & Hgreedy & Ht0);
    [by rewrite Hnodes|].
  rewrite (generate_population_unfold _ _ _ _ _ Hgreedy) in Hrun.
  apply (for_each_invariant _ _
           (fun i (population : list (Z * list Z)) =>
              length population = S i
              /\ exists rest,
                   population = (_get_fitness t0 graph, t0) :: rest
                   /\ Forall (fun m =>
                        fst m = _get_fitness (snd m) graph
                        /\ exists swath, start swath <= stop swath
                             /\ snd m = slice_set t0 swath
                                          (reverse (slice_get t0 swath)))
                        rest))
    with (i := 0) in Hrun.
  - destruct Hrun as (Hlen & rest & -> & Hrest).
    exists t0, rest. split; [done|]. split; [done|]. split; [|split].
    + eapply Forall_impl; [exact Hrest|]. by intros m [_ ?].
    + apply Forall_cons. split; [done|].
      eapply Forall_impl; [exact Hrest|].
      intros m (Hfit & swath & Hle & Hm). split; [done|].
      apply permutation_of_nodes_iff. rewrite Hm.
      rewrite reverse_swath_Permutation by done.
      by apply permutation_of_nodes_iff.
    + rewrite Hlen, length_seq. lia.
  - intros i acc x s acc' s' (Hlen & rest & -> & Hrest) Hbody.
    run_inv Hbody. injection Hbody as <- <-.
    apply with_local_sim_ret in Hrun0 as (swath & Hle & ->).
    split; [cbn [length] in *; rewrite length_app; cbn [length]; lia|].
    eexists. split; [done|].
    apply Forall_app. split; [done|]. apply Forall_singleton.
    split; [done|]. by exists swath.
  - split; [done|]. exists []. by split.
Qed.

(** A population [generate_population] returns starts with the greedy
    tour; every other member is the greedy tour with one swath reversed;
    every member carries the fitness of its own tour, a permutation of the
    node set; there are [size] members, and one when [size] is below 1. *)
Theorem generate_population_members (fuel : nat) (graph : Graph) (size : Z)
    (g g' : rng) (population : list member) :
  generate_population fuel graph size g = (Ret population, g') ->
  exists t0 rest,
    greedy graph g = (Ret t0, g)
    /\ population = (_get_fitness t0 graph, t0) :: rest
    /\ Forall (fun m => exists swath,
                 start swath <= stop swath
                 /\ snd m = slice_set t0 swath (reverse (slice_get t0 swath)))
         rest
    /\ scored_members graph population
    /\ Z.of_nat (length population) = Z.max size 1.
Proof. apply generate_population_ret_inv. Qed.

Lemma generate_population_members_witness :
  exists t0 rest,
    greedy square_graph (mk_rng (fun _ => 1) 0)
    = (Ret t0, mk_rng (fun _ => 1) 0)
    /\ [(-12, [0; 1; 2; 3]); (-18, [0; 2; 1; 3]); (-18, [0; 2; 1; 3])]%Z
       = (_get_fitness t0 square_graph, t0) :: rest
    /\ Forall (fun m => exists swath,
                 start swath <= stop swath
                 /\ snd m = slice_set t0 swath (reverse (slice_get t0 swath)))
         rest
    /\ scored_members square_graph
         [(-12, [0; 1; 2; 3]); (-18, [0; 2; 1; 3]); (-18, [0; 2; 1; 3])]%Z
    /\ Z.of_nat
         (length
            [(-12, [0; 1; 2; 3]); (-18, [0; 2; 1; 3]); (-18, [0; 2; 1; 3])]%Z)
       = Z.max 3 1.
Proof.
  apply (generate_population_members 0 square_graph 3
           (mk_rng (fun _ => 1) 0) (advance 4 (mk_rng (fun _ => 1) 0))).
  reflexivity.
Defined.

(** ** The engine *)

Lemma with_local_ret_inv {St T A} (s0 s' : St) (m : M (St * T) A) t t' :
  with_local s0 m t = (Ret s', t') ->
  exists a, m (s0, t) = (Ret a, (s', t')).
Proof.
  unfold with_local. destruct (m (s0, t)) as [[a| |] [s1 t1]]; [|done..].
  intros [= <- <-]. by exists a.
Qed.

Lemma for_each_state_invariant {St X B} (xs : list X)
    (body : B -> X -> M St B) (Inv : St -> Prop) :
  (forall acc x s acc' s',
     Inv s -> body acc x s = (Ret acc', s') -> Inv s') ->
  forall acc s acc' s',
    Inv s -> for_each xs body acc s = (Ret acc', s') -> Inv s'.
Proof.
  intros Hbody. induction xs as [|x xs IH]; intros acc s acc' s' Hinv Hrun.
  - by injection Hrun as <- <-.
  - cbn [for_each] in Hrun. run_inv Hrun.
    eapply IH; [|done]. by eapply Hbody.
Qed.

Lemma offspring_keeps_scored fuel graph main_seq secondary_seq bound
    population g u s' :
  permutation_of_nodes graph main_seq ->
  permutation_of_nodes graph secondary_seq ->
  scored_members graph population -> reaches bound population ->
  offspring fuel graph main_seq secondary_seq (population, g) = (Ret u, s') ->
  scored_members graph (fst s') /\ reaches bound (fst s').
Proof.
  intros Hmain Hsec Hscored (m & Hm & Hbound) Hrun.
  apply offspring_ret_inv in Hrun
    as (child & child' & t & population' & (g0 & g1 & Hox1) & Hmut & Hchild'
        & -> & _ & Hupdate).
  pose proof Hmain as (_ & Hnd & _).
  apply permutation_of_nodes_iff in Hmain, Hsec.
  apply ox1_ret_child in Hox1 as (tc & -> & Htc);
    [|done|by rewrite Hmain, Hsec].
  assert (Ht : t ≡ₚ main_seq).
  { destruct Hmut as [->|(swath & Hle & ->)].
    - apply (inj (fmap Some)) in Hchild' as <-. done.
    - rewrite fmap_reverse_swath in Hchild'.
      apply (inj (fmap Some)) in Hchild' as <-.
      by rewrite reverse_swath_Permutation. }
  destruct Hupdate as [->|(root & rest & -> & Hlt & Hperm)].
  { split; [done|]. by exists m. }
  split.
  - unfold scored_members. rewrite Hperm. apply Forall_cons. split.
    + split; [done|]. apply permutation_of_nodes_iff. cbn [snd].
      by rewrite Ht.
    + by apply Forall_cons in Hscored as [_ ?].
  - apply elem_of_cons in Hm as [->|Hm].
    + exists (_get_fitness t graph, t). rewrite Hperm.
      split; [left|cbn [fst]; lia].
    + exists m. rewrite Hperm. split; [by right|done].
Qed.

Lemma generation_keeps_scored fuel graph bound population g u s' :
  scored_members graph population -> reaches bound population ->
  generation fuel graph (population, g) = (Ret u, s') ->
  scored_members graph (fst s') /\ reaches bound (fst s').
Proof.
  intros Hscored Hreach. rewrite generation_offspring. intros Hrun.
  run_inv Hrun. injection Hrun0 as <- <-.
  apply on_rng_ret_inv in Hrun1 as (g1 & Hselect & ->).
  apply select_two_parents_ret_inv in Hselect as (_ & Hp1 & Hp2).
  assert (Hparent : forall t, t ∈ snd <$> population ->
            permutation_of_nodes graph t).
  { intros t (m & -> & Hm)%list_elem_of_fmap_1.
    by apply (proj1 (Forall_forall _ _) Hscored). }
  apply Hparent in Hp1, Hp2.
  apply (offspring_keeps_scored _ _ _ _ bound) in Hrun2 as [Hscored1 Hreach1];
    [|done..].
  destruct s1 as [population1 g2]. cbn [fst] in *.
  by apply (offspring_keeps_scored _ _ _ _ bound) in Hrun.
Qed.

(** A tour [genetic] returns is a permutation of the node set and is at
    least as fit as the greedy tour the run started from: the members keep
    the fitness of their own tours, and a member as fit as the greedy tour
    is evicted only for a fitter one. *)
Theorem genetic_is_no_worse_than_greedy (population_size max_iterations : Z)
    (fuel : nat) (graph : Graph) (g g' : rng) (t : tour) :
  genetic_with population_size max_iterations fuel graph g = (Ret t, g') ->
  exists t0,
    greedy graph g = (Ret t0, g)
    /\ permutation_of_nodes graph t
    /\ (_get_fitness t0 graph <= _get_fitness t graph)%Z.
Proof.
  unfold genetic_with. intros Hrun. run_inv Hrun.
  apply generate_population_ret_inv in Hrun0
    as (t0 & rest0 & Hgreedy & -> & _ & Hscored & _).
  exists t0. split; [done|].
  apply with_local_ret_inv in Hrun1 as (u & Hloop).
  apply (for_each_state_invariant _ _
           (fun s => scored_members graph (fst s)
                     /\ reaches (_get_fitness t0 graph) (fst s)))
    in Hloop.
  - destruct Hloop as [Hscored1 (m & Hm & Hbound)]. cbn [fst] in *.
    destruct a0 as [|first rest]; [by apply elem_of_nil in Hm|].
    injection Hrun as <- <-.
    destruct (max_by_fitness_greatest first rest) as [Hin Hmax].
    apply (proj1 (Forall_forall _ _) Hscored1) in Hin as [Hfit Hperm].
    split; [done|].
    specialize (Hmax m Hm). rewrite Hfit in Hmax. lia.
  - intros [] x st [] st' [Hs1 Hs2] Hbody. destruct st as [population g2].
    by apply (generation_keeps_scored _ _ _ _ _ _ _ Hs1 Hs2) in Hbody.
  - split; [done|]. eexists. split; [left|]. cbn [fst]. lia.
Qed.

Lemma genetic_is_no_worse_than_greedy_witness :
  exists t0,
    greedy square_graph (mk_rng (fun i => 3 * i + 1) 0)
    = (Ret t0, mk_rng (fun i => 3 * i + 1) 0)
    /\ permutation_of_nodes square_graph [0; 1; 3; 2]%Z
    /\ (_get_fitness t0 square_graph
        <= _get_fitness [0; 1; 3; 2]%Z square_graph)%Z.
Proof.
  apply (genetic_is_no_worse_than_greedy 4 10 5 square_graph
           (mk_rng (fun i => 3 * i + 1) 0)
           (snd (genetic_with 4 10 5 square_graph
                   (mk_rng (fun i => 3 * i + 1) 0)))).
  vm_compute. reflexivity.
Defined.

(** With a population of one member or fewer requested, the engine gets
    its one-member population and fails with [ValueError] in the first
    tournament; when there is no generation to run it returns the greedy
    tour instead. *)
Theorem genetic_needs_two_members (population_size max_iterations : Z)
    (fuel : nat) (graph : Graph) (g : rng) :
  (population_size <= 1)%Z -> node_set graph ≠ [] ->
  ((1 <= max_iterations)%Z ->
   genetic_with population_size max_iterations fuel graph g
   = (Raise ValueError, g))
  /\ ((max_iterations <= 0)%Z ->
      exists t0, greedy graph g = (Ret t0, g)
        /\ genetic_with population_size max_iterations fuel graph g
           = (Ret t0, g)).
Proof.
  intros Hsize Hnodes.
  destruct (greedy_run graph g Hnodes) as (t0 & Hgreedy & _).
  assert (Hpop : generate_population fuel graph population_size g
                 = (Ret [(_get_fitness t0 graph, t0)], g)).
  { rewrite (generate_population_unfold _ _ _ _ _ Hgreedy).
    by replace (Z.to_nat (population_size - 1)) with 0 by lia. }
  unfold genetic_with. rewrite (bind_ret _ _ _ _ _ Hpop). split.
  - intros Hiter.
    replace (Z.to_nat max_iterations) with (S (Z.to_nat (max_iterations - 1)))
      by lia.
    cbn [seq for_each]. reflexivity.
  - intros Hiter. exists t0. split; [done|].
    by replace (Z.to_nat max_iterations) with 0 by lia.
Qed.

Lemma genetic_needs_two_members_witness :
  ((1 <= 10)%Z ->
   genetic_with 1 10 0 square_graph (mk_rng (fun _ => 1) 0)
   = (Raise ValueError, mk_rng (fun _ => 1) 0))
  /\ ((10 <= 0)%Z ->
      exists t0, greedy square_graph (mk_rng (fun _ => 1) 0)
                 = (Ret t0, mk_rng (fun _ => 1) 0)
        /\ genetic_with 1 10 0 square_graph (mk_rng (fun _ => 1) 0)
           = (Ret t0, mk_rng (fun _ => 1) 0)).
Proof.
  apply (genetic_needs_two_members 1 10 0 square_graph
           (mk_rng (fun _ => 1) 0)).
  - lia.
  - done.
Defined.

(** On a graph of fewer than 3 nodes the engine, with its population of
    200, fails before any generation: with the [KeyError] of [pop] when the
    graph has no node, with the [AssertionError] of [sim] when it has one
    or two. *)
Theorem genetic_needs_three_nodes (fuel : nat) (graph : Graph) (g : rng) :
  length (node_set graph) < 3 ->
  genetic fuel graph g
  = (Raise (if decide (node_set graph = []) then KeyError
            else AssertionError), g).
Proof.
  intros Hnodes. unfold genetic, genetic_with.
  case_decide as Hnil.
  - unfold bind at 1, generate_population, bind at 1, greedy.
    unfold node_set in Hnil. by rewrite Hnil.
  - destruct (greedy_run graph g Hnil) as (t0 & Hgreedy & Hlen & _).
    unfold bind at 1.
    rewrite (generate_population_unfold _ _ _ _ _ Hgreedy).
    change (seq 0 (Z.to_nat (POPULATION_SIZE - 1))) with (0 :: seq 1 198).
    cbn [for_each]. unfold bind at 1 2.
    rewrite with_local_sim_unfold.
    by rewrite (proj2 (Z.ltb_ge 2 (Z.of_nat (length t0)))) by lia.
Qed.

Lemma genetic_needs_three_nodes_witness :
  genetic 0 (mk_graph [0; 1]%Z (fun _ _ => 1%Z)) (mk_rng (fun _ => 1) 0)
  = (Raise AssertionError, mk_rng (fun _ => 1) 0).
Proof.
  apply (genetic_needs_three_nodes 0 (mk_graph [0; 1]%Z (fun _ _ => 1%Z))).
  vm_compute. lia.
Defined.
